(** * graphql-loader: the import-resolution and fragment-assembly pipeline

    A shallow embedding of [src/loader.ts] and the properties of its
    stages: import scanning, fragment deduplication, source-location
    stripping, unused-fragment pruning, schema lookup and the loader
    entry point. *)

From Stdlib Require Import List ListDec String Ascii ZArith Lia Bool.
From Equations Require Import Equations.
From stdpp Require Import base list gmap strings.
Import ListNotations.

Local Open Scope string_scope.
Local Open Scope list_scope.

(** * The document model

    [loader.ts] imports its node types ([DocumentNode], [DefinitionNode],
    [SelectionSetNode]) from the [graphql] package.  The fields kept here
    are the ones the loader reads: [kind], [name.value], [selectionSet],
    [selections], [definitions] and [loc]. *)

Module Ast.

(** Modelled from the spec: the [SourceLocation] attached to a node
    (section 3); its type comes from the [graphql] package. *)
Record Location := mkLocation { loc_start : Z; loc_end : Z }.

(** Modelled from the spec: the name of a node, read by the loader as
    [name.value]; its type comes from the [graphql] package. *)
Record NameNode := mkName { value : string; name_loc : option Location }.

(** A definition of any other kind (type-system definitions); the
    loader only looks at its [kind]. *)
Inductive OtherKind := SchemaDefinition | TypeDefinition | DirectiveDefinition.

(** Modelled from the spec: [Selection] and [SelectionSet] of section 3
    (field, fragment spread, inline fragment); the types come from the
    [graphql] package. *)
Inductive SelectionNode :=
| Field (name : NameNode) (selectionSet : option SelectionSetNode)
        (loc : option Location)
| FragmentSpread (name : NameNode) (loc : option Location)
| InlineFragment (selectionSet : SelectionSetNode) (loc : option Location)
with SelectionSetNode :=
| SelectionSet (selections : list SelectionNode) (loc : option Location).

(** Modelled from the spec: [Definition] of section 3, an operation or
    a fragment; the loader's tests on [def.kind] leave room for the
    other kinds the [graphql] package declares. *)
Inductive DefinitionNode :=
| OperationDefinition (name : option NameNode) (selectionSet : SelectionSetNode)
                      (loc : option Location)
| FragmentDefinition (name : NameNode) (selectionSet : SelectionSetNode)
                     (loc : option Location)
| OtherDefinition (kind : OtherKind) (loc : option Location).

(** Modelled from the spec: [Document] of section 3, an ordered
    sequence of definitions; the type comes from the [graphql] package. *)
Record DocumentNode := mkDocument {
  definitions : list DefinitionNode;
  doc_loc : option Location
}.

Definition isFragment (def : DefinitionNode) : bool :=
  match def with FragmentDefinition _ _ _ => true | _ => false end.

Definition isOperation (def : DefinitionNode) : bool :=
  match def with OperationDefinition _ _ _ => true | _ => false end.

(** [def.name.value] of a fragment definition. *)
Definition fragmentName (def : DefinitionNode) : option string :=
  match def with FragmentDefinition n _ _ => Some (value n) | _ => None end.

(** [document.definitions = defs]. *)
Definition setDefinitions (document : DocumentNode)
    (defs : list DefinitionNode) : DocumentNode :=
  {| definitions := defs; doc_loc := doc_loc document |}.

End Ast.
Import Ast.

(** * Fragment deduplication ([removeDuplicateFragments]) *)

(** The callback of [document.definitions.filter], with the [usedName]
    set it closes over threaded through the pass. *)
Fixpoint filterDuplicates (usedName : gset string)
    (defs : list DefinitionNode) : list DefinitionNode :=
  match defs with
  | [] => []
  | def :: rest =>
      match def with
      | FragmentDefinition name _ _ =>
          if bool_decide (value name ∈ usedName)
          then filterDuplicates usedName rest
          else def :: filterDuplicates ({[value name]} ∪ usedName) rest
      | _ => def :: filterDuplicates usedName rest
      end
  end.

Definition removeDuplicateFragments (document : DocumentNode) : DocumentNode :=
  setDefinitions document (filterDuplicates ∅ (definitions document)).

(** * Unused-fragment pruning ([removeUnusedFragments]) *)

(** [traverse]: every [FragmentSpread] adds its name to [usedFragments];
    any other selection with a [selectionSet] is descended into. *)
Fixpoint traverse (selectionSet : SelectionSetNode)
    (usedFragments : gset string) : gset string :=
  match selectionSet with
  | SelectionSet sels _ =>
      fold_left
        (fun used selection =>
           match selection with
           | FragmentSpread name _ => {[value name]} ∪ used
           | Field _ (Some s) _ => traverse s used
           | Field _ None _ => used
           | InlineFragment s _ => traverse s used
           end)
        sels usedFragments
  end.

Definition findFragmentSpreads (doc : DocumentNode)
    (usedFragments : gset string) : gset string :=
  fold_left
    (fun used def =>
       match def with
       | OperationDefinition _ s _ => traverse s used
       | FragmentDefinition _ s _ => traverse s used
       | OtherDefinition _ _ => used
       end)
    (definitions doc) usedFragments.

(** The filter callback of the sweep:
    [def.kind !== "FragmentDefinition" || usedFragments.has(def.name.value)]. *)
Definition keepDefinition (usedFragments : gset string)
    (def : DefinitionNode) : bool :=
  match def with
  | FragmentDefinition name _ _ => bool_decide (value name ∈ usedFragments)
  | _ => true
  end.

(** One mark-and-sweep pass over the document. *)
Definition sweep (document : DocumentNode) : DocumentNode :=
  setDefinitions document
    (List.filter (keepDefinition (findFragmentSpreads document ∅))
       (definitions document)).

Definition inspect {A} (a : A) : {b : A | a = b} := exist _ a eq_refl.

(** The recursion of the source is on the document after the sweep, taken
    when the definition count changed ([defCount !== ...length]); the
    count strictly decreases, which is the termination measure. *)
Equations? removeUnusedFragments (document : DocumentNode) : DocumentNode
  by wf (length (definitions document)) lt :=
  removeUnusedFragments document
    with inspect (Nat.eqb (length (definitions document))
                          (length (definitions (sweep document)))) := {
    | exist _ false Hne => removeUnusedFragments (sweep document)
    | exist _ true _ => sweep document }.
Proof.
  apply Nat.eqb_neq in Hne. unfold sweep in *. simpl in *.
  revert Hne. generalize (keepDefinition (findFragmentSpreads document ∅)).
  intros keep Hne.
  assert (Hle : forall l : list DefinitionNode,
             length (List.filter keep l) <= length l).
  { induction l as [|a l IH]; simpl; [lia|]. destruct (keep a); simpl; lia. }
  specialize (Hle (definitions document)). lia.
Qed.

(** * JavaScript values and exceptions

    [removeSourceLocations] casts its argument to a plain dictionary and
    walks it without looking at node kinds, so it is embedded over the
    untyped object tree.  Objects are association lists in
    [Object.keys] order; numbers are the integers an AST holds. *)

Inductive JSError :=
| Error (message : string)
| TypeError (message : string).

Inductive Result (A : Type) :=
| Ok (a : A)
| Throw (e : JSError).
Arguments Ok {A} a.
Arguments Throw {A} e.

Definition bindResult {A B} (r : Result A) (k : A -> Result B) : Result B :=
  match r with Ok a => k a | Throw e => Throw e end.

(** [l.forEach(f)] / [l.map(f)] with a callback that may throw: the first
    exception ends the loop. *)
Definition mapResult {A B} (f : A -> Result B) : list A -> Result (list B) :=
  fix go (l : list A) : Result (list B) :=
    match l with
    | [] => Ok []
    | x :: rest =>
        match f x with
        | Throw e => Throw e
        | Ok y => match go rest with
                  | Throw e => Throw e
                  | Ok ys => Ok (y :: ys)
                  end
        end
    end.

Module JS.

#[local] Set Warnings "-register-all".

Inductive JSValue :=
| JUndefined
| JNull
| JBool (b : bool)
| JNumber (n : Z)
| JString (s : string)
| JArray (elems : list JSValue)
| JObject (props : list (string * JSValue)).

(** ToBoolean. *)
Definition truthy (v : JSValue) : bool :=
  match v with
  | JUndefined | JNull => false
  | JBool b => b
  | JNumber n => negb (Z.eqb n 0)
  | JString s => negb (String.eqb s "")
  | JArray _ | JObject _ => true
  end.

(** [obj[key]] on the own properties of an object. *)
Fixpoint getProp (key : string) (props : list (string * JSValue)) : JSValue :=
  match props with
  | [] => JUndefined
  | (k, v) :: rest => if String.eqb k key then v else getProp key rest
  end.

(** [delete obj[key]]. *)
Definition deleteProp (key : string) (props : list (string * JSValue))
  : list (string * JSValue) :=
  List.filter (fun kv => negb (String.eqb (fst kv) key)) props.

(** The loop over [Object.keys(document)]: every property still present
    is visited in key order; [deleted] tells which keys the preceding
    [delete] removed. *)
Definition mapProps (deleted : string -> bool) (f : JSValue -> Result JSValue)
  : list (string * JSValue) -> Result (list (string * JSValue)) :=
  fix go (props : list (string * JSValue)) :=
    match props with
    | [] => Ok []
    | (k, v) :: rest =>
        if deleted k then go rest
        else
          match f v with
          | Throw e => Throw e
          | Ok v' => match go rest with
                     | Throw e => Throw e
                     | Ok rest' => Ok ((k, v') :: rest')
                     end
          end
    end.

(** [removeSourceLocations].  The object is mutated in place by the
    source; the embedding returns the tree after the walk, or the
    exception that interrupted it.

    - [document.loc] on [undefined] or [null] is a [TypeError];
    - on a boolean, a number or a string it is [undefined], and none of
      the keys of such a value holds an array or an object;
    - an array has no [loc]; its keys are its indices. *)
Fixpoint removeSourceLocations (document : JSValue) : Result JSValue :=
  let visit (value : JSValue) : Result JSValue :=
    match value with
    | JArray vals =>
        bindResult (mapResult removeSourceLocations vals)
                   (fun vals' => Ok (JArray vals'))
    | JObject _ => removeSourceLocations value
    | _ => Ok value
    end in
  match document with
  | JUndefined => Throw (TypeError "Cannot read properties of undefined (reading 'loc')")
  | JNull => Throw (TypeError "Cannot read properties of null (reading 'loc')")
  | JBool _ | JNumber _ | JString _ => Ok document
  | JArray elems =>
      bindResult (mapResult visit elems) (fun elems' => Ok (JArray elems'))
  | JObject props =>
      let deleted (k : string) : bool :=
        if truthy (getProp "loc" props) then String.eqb k "loc" else false in
      bindResult (mapProps deleted visit props) (fun props' => Ok (JObject props'))
  end.

(** No object at any depth has a [loc] property. *)
Fixpoint locFree (v : JSValue) : bool :=
  match v with
  | JArray elems => forallb locFree elems
  | JObject props =>
      forallb (fun kv => negb (String.eqb (fst kv) "loc") && locFree (snd kv)) props
  | _ => true
  end.

Definition isNullish (v : JSValue) : bool :=
  match v with JUndefined | JNull => true | _ => false end.

(** The shape of a tree built by the parser: a sequence holds nodes or
    values, never [null] or [undefined], and a [loc] property holds a
    location object (anything truthy). *)
Fixpoint astShaped (v : JSValue) : bool :=
  match v with
  | JArray elems => forallb (fun x => negb (isNullish x) && astShaped x) elems
  | JObject props =>
      forallb (fun kv => (negb (String.eqb (fst kv) "loc") || truthy (snd kv))
                         && astShaped (snd kv)) props
  | _ => true
  end.

End JS.
Import JS.

(** * Typed documents as object trees

    The typed functions and the untyped walk act on the same object; the
    encoding below states which object a typed node is.  An absent
    optional child is [null], as the parser leaves it; an absent [loc] is
    a missing property. *)

Module Encode.

Definition locToJS (l : option Location) : list (string * JSValue) :=
  match l with
  | Some l => [("loc", JObject [("start", JNumber (loc_start l));
                                ("end", JNumber (loc_end l))])]
  | None => []
  end.

(** A node object: its own properties, then [loc] when it has one. *)
Definition node (props : list (string * JSValue)) (l : option Location)
  : JSValue :=
  JObject (props ++ locToJS l).

Definition nameToJS (n : NameNode) : JSValue :=
  node [("kind", JString "Name"); ("value", JString (value n))] (name_loc n).

Fixpoint selectionToJS (s : SelectionNode) : JSValue :=
  match s with
  | Field n ss l =>
      node [("kind", JString "Field"); ("name", nameToJS n);
            ("selectionSet",
             match ss with Some x => selectionSetToJS x | None => JNull end)] l
  | FragmentSpread n l =>
      node [("kind", JString "FragmentSpread"); ("name", nameToJS n)] l
  | InlineFragment ss l =>
      node [("kind", JString "InlineFragment");
            ("selectionSet", selectionSetToJS ss)] l
  end
with selectionSetToJS (ss : SelectionSetNode) : JSValue :=
  match ss with
  | SelectionSet sels l =>
      node [("kind", JString "SelectionSet");
            ("selections", JArray (List.map selectionToJS sels))] l
  end.

Definition otherKindName (k : OtherKind) : string :=
  match k with
  | SchemaDefinition => "SchemaDefinition"
  | TypeDefinition => "ObjectTypeDefinition"
  | DirectiveDefinition => "DirectiveDefinition"
  end.

Definition definitionToJS (def : DefinitionNode) : JSValue :=
  match def with
  | OperationDefinition n ss l =>
      node [("kind", JString "OperationDefinition");
            ("name", match n with Some x => nameToJS x | None => JNull end);
            ("selectionSet", selectionSetToJS ss)] l
  | FragmentDefinition n ss l =>
      node [("kind", JString "FragmentDefinition"); ("name", nameToJS n);
            ("selectionSet", selectionSetToJS ss)] l
  | OtherDefinition k l => node [("kind", JString (otherKindName k))] l
  end.

(** The typed view of what [removeSourceLocations] does: every [loc] is
    gone, nothing else changes. *)
Definition clearName (n : NameNode) : NameNode := mkName (value n) None.

Fixpoint clearSelection (s : SelectionNode) : SelectionNode :=
  match s with
  | Field n ss _ => Field (clearName n) (option_map clearSelectionSet ss) None
  | FragmentSpread n _ => FragmentSpread (clearName n) None
  | InlineFragment ss _ => InlineFragment (clearSelectionSet ss) None
  end
with clearSelectionSet (ss : SelectionSetNode) : SelectionSetNode :=
  match ss with
  | SelectionSet sels _ => SelectionSet (List.map clearSelection sels) None
  end.

Definition clearDefinition (def : DefinitionNode) : DefinitionNode :=
  match def with
  | OperationDefinition n ss _ =>
      OperationDefinition (option_map clearName n) (clearSelectionSet ss) None
  | FragmentDefinition n ss _ =>
      FragmentDefinition (clearName n) (clearSelectionSet ss) None
  | OtherDefinition k _ => OtherDefinition k None
  end.

Definition clearLocations (d : DocumentNode) : DocumentNode :=
  mkDocument (List.map clearDefinition (definitions d)) None.

Definition toJS (d : DocumentNode) : JSValue :=
  node [("kind", JString "Document");
        ("definitions", JArray (List.map definitionToJS (definitions d)))]
       (doc_loc d).

(** Reading a typed node back from the object. *)

Definition mapOption {A B} (f : A -> option B) : list A -> option (list B) :=
  fix go (l : list A) : option (list B) :=
    match l with
    | [] => Some []
    | x :: rest =>
        match f x with
        | None => None
        | Some y => match go rest with
                    | None => None
                    | Some ys => Some (y :: ys)
                    end
        end
    end.

(** [f (obj[key])] for a property that is present. *)
Definition withProp {A} (key : string) (f : JSValue -> option A)
  : list (string * JSValue) -> option A :=
  fix go (props : list (string * JSValue)) : option A :=
    match props with
    | [] => None
    | (k, v) :: rest => if String.eqb k key then f v else go rest
    end.

Definition locFromJS (props : list (string * JSValue))
  : option (option Location) :=
  match getProp "loc" props with
  | JUndefined => Some None
  | JObject lp =>
      match getProp "start" lp, getProp "end" lp with
      | JNumber a, JNumber b => Some (Some (mkLocation a b))
      | _, _ => None
      end
  | _ => None
  end.

Definition nameFromJS (v : JSValue) : option NameNode :=
  match v with
  | JObject props =>
      match getProp "value" props, locFromJS props with
      | JString s, Some l => Some (mkName s l)
      | _, _ => None
      end
  | _ => None
  end.

Fixpoint selectionFromJS (v : JSValue) : option SelectionNode :=
  match v with
  | JObject props =>
      match getProp "kind" props, locFromJS props with
      | JString k, Some l =>
          if String.eqb k "Field" then
            match nameFromJS (getProp "name" props),
                  withProp "selectionSet"
                    (fun x => if isNullish x then Some None
                              else option_map Some (selectionSetFromJS x))
                    props with
            | Some n, Some ss => Some (Field n ss l)
            | _, _ => None
            end
          else if String.eqb k "FragmentSpread" then
            option_map (fun n => FragmentSpread n l)
                       (nameFromJS (getProp "name" props))
          else if String.eqb k "InlineFragment" then
            option_map (fun ss => InlineFragment ss l)
                       (withProp "selectionSet" selectionSetFromJS props)
          else None
      | _, _ => None
      end
  | _ => None
  end
with selectionSetFromJS (v : JSValue) : option SelectionSetNode :=
  match v with
  | JObject props =>
      match withProp "selections"
              (fun x => match x with
                        | JArray l => mapOption selectionFromJS l
                        | _ => None
                        end) props,
            locFromJS props with
      | Some sels, Some l => Some (SelectionSet sels l)
      | _, _ => None
      end
  | _ => None
  end.

Definition otherKindFromName (k : string) : option OtherKind :=
  if String.eqb k "SchemaDefinition" then Some SchemaDefinition
  else if String.eqb k "ObjectTypeDefinition" then Some TypeDefinition
  else if String.eqb k "DirectiveDefinition" then Some DirectiveDefinition
  else None.

Definition definitionFromJS (v : JSValue) : option DefinitionNode :=
  match v with
  | JObject props =>
      match getProp "kind" props, locFromJS props with
      | JString k, Some l =>
          if String.eqb k "OperationDefinition" then
            match (if isNullish (getProp "name" props) then Some None
                   else option_map Some (nameFromJS (getProp "name" props))),
                  selectionSetFromJS (getProp "selectionSet" props) with
            | Some n, Some ss => Some (OperationDefinition n ss l)
            | _, _ => None
            end
          else if String.eqb k "FragmentDefinition" then
            match nameFromJS (getProp "name" props),
                  selectionSetFromJS (getProp "selectionSet" props) with
            | Some n, Some ss => Some (FragmentDefinition n ss l)
            | _, _ => None
            end
          else option_map (fun o => OtherDefinition o l) (otherKindFromName k)
      | _, _ => None
      end
  | _ => None
  end.

Definition fromJS (v : JSValue) : option DocumentNode :=
  match v with
  | JObject props =>
      match getProp "definitions" props, locFromJS props with
      | JArray defs, Some l =>
          option_map (fun ds => mkDocument ds l) (mapOption definitionFromJS defs)
      | _, _ => None
      end
  | _ => None
  end.

End Encode.

(** [removeSourceLocations(document)] as the loader calls it, on the
    object behind the typed document. *)
Definition removeSourceLocationsDoc (document : DocumentNode)
  : Result DocumentNode :=
  match removeSourceLocations (Encode.toJS document) with
  | Throw e => Throw e
  | Ok v =>
      match Encode.fromJS v with
      | Some document' => Ok document'
      | None => Throw (TypeError "not a document")
      end
  end.

(** * Scanning for import directives (the loop of [extractImports])

    Source text is a string of 8-bit characters; the two line
    terminators beyond ASCII that [.] also refuses do not occur in it. *)

Module Scan.

Definition LF : ascii := "010"%char.
Definition CR : ascii := "013"%char.
Definition dquote : ascii := "034"%char.
Definition squote : ascii := "039"%char.

(** [source.split(/(\r\n|\r|\n)/)]: the separators are captured and stay
    in the result, between the lines. *)
Fixpoint splitLines (source : string) : list string :=
  match source with
  | EmptyString => [EmptyString]
  | String c rest =>
      if Ascii.eqb c CR then
        match rest with
        | String c' rest' =>
            if Ascii.eqb c' LF
            then EmptyString :: String CR (String LF EmptyString) :: splitLines rest'
            else EmptyString :: String CR EmptyString :: splitLines rest
        | EmptyString => EmptyString :: String CR EmptyString :: splitLines rest
        end
      else if Ascii.eqb c LF then
        EmptyString :: String LF EmptyString :: splitLines rest
      else
        match splitLines rest with
        | line :: more => String c line :: more
        | [] => [String c EmptyString]
        end
  end.

(** [s.split(" ")]. *)
Fixpoint splitSpaces (s : string) : list string :=
  match s with
  | EmptyString => [EmptyString]
  | String c rest =>
      if Ascii.eqb c " "%char then EmptyString :: splitSpaces rest
      else
        match splitSpaces rest with
        | tok :: more => String c tok :: more
        | [] => [String c EmptyString]
        end
  end.

Definition isQuote (c : ascii) : bool := Ascii.eqb c dquote || Ascii.eqb c squote.

(** The characters [.] does not match. *)
Definition isLineTerminator (c : ascii) : bool := Ascii.eqb c LF || Ascii.eqb c CR.

(** The text before the last quote character of the leading run of
    characters that [.] matches. *)
Fixpoint uptoLastQuote (s : string) : option string :=
  match s with
  | EmptyString => None
  | String c rest =>
      if isLineTerminator c then None
      else
        match uptoLastQuote rest with
        | Some p => Some (String c p)
        | None => if isQuote c then Some EmptyString else None
        end
  end.

(** [tok.match(/^[\"\'](.+)[\"\']/)], giving capture group 1: an opening
    quote, then a greedy non-empty [.+], then a quote of either kind. *)
Definition matchQuoted (tok : string) : option string :=
  match tok with
  | String q (String c rest) =>
      if isQuote q && negb (isLineTerminator c) then
        option_map (String c) (uptoLastQuote rest)
      else None
  | _ => None
  end.

Inductive LineScan :=
| NotImport
| MalformedImport
| Import (filePath : string).

(** The body of [lines.forEach], up to the extraction of [filePath]. *)
Definition scanLine (line : string) : LineScan :=
  match line with
  | String c rest =>
      if negb (Ascii.eqb c "#"%char) then NotImport
      else
        match splitSpaces rest with
        | first :: more =>
            if negb (String.eqb first "import") then NotImport
            else
              match more with
              | tok :: _ =>
                  if String.eqb tok EmptyString then MalformedImport
                  else match matchQuoted tok with
                       | Some filePath => Import filePath
                       | None => MalformedImport
                       end
              | [] => MalformedImport
              end
        | [] => NotImport
        end
  | EmptyString => NotImport
  end.

End Scan.
Import Scan.

(** * The host: loader context, external libraries, effects *)

Record Stats := mkStats { isFile : bool }.

Inductive OutputTarget := OutString | OutDocument.

Record LoaderOptions := mkOptions {
  opt_schema : option string;
  opt_validate : option bool;
  opt_output : option OutputTarget;
  opt_removeUnusedFragments : option bool
}.

(** webpack's [loader.LoaderContext], as far as the loader uses it. *)
Record LoaderContext := mkLoader {
  context : string;
  resolve : string -> string -> Result string;
  fs_readFile : string -> Result string;
  fs_stat : string -> Result Stats;
  getOptions : LoaderOptions;
  async : bool
}.

(** The imported libraries: [graphql], [path] and [JSON]. *)
Class Externals := {
  GraphQLSchema : Type;
  graphqlParse : string -> Result DocumentNode;
  graphqlPrint : DocumentNode -> string;
  graphqlValidate : GraphQLSchema -> DocumentNode -> list JSError;
  (** [buildClientSchema(JSON.parse(text))] *)
  buildClientSchema : string -> Result GraphQLSchema;
  stringifyString : string -> string;
  stringifyDocument : DocumentNode -> string;
  join : string -> string -> string;
  dirname : string -> string
}.

(** What the host observes, in order. *)
Inductive Event :=
| EvCacheable
| EvResolve (context request : string)
| EvAddDependency (path : string)
| EvReadFile (path : string)
| EvStat (path : string)
| EvEmitError (e : JSError).

Definition World := list Event.

(** Computations thread the event log and either return, throw, or are
    still running when the recursion budget is used up ([None]). *)
Definition M (A : Type) : Type := World -> option (Result A * World).

Definition ret {A} (a : A) : M A := fun w => Some (Ok a, w).
Definition throw {A} (e : JSError) : M A := fun w => Some (Throw e, w).
Definition pending {A} : M A := fun _ => None.
Definition liftResult {A} (r : Result A) : M A := fun w => Some (r, w).
Definition emit (ev : Event) : M unit := fun w => Some (Ok tt, w ++ [ev]).

Definition bind {A B} (m : M A) (k : A -> M B) : M B :=
  fun w =>
    match m w with
    | None => None
    | Some (Throw e, w') => Some (Throw e, w')
    | Some (Ok a, w') => k a w'
    end.

#[global] Instance M_ret : MRet M := @ret.
#[global] Instance M_bind : MBind M := fun A B k m => bind m k.

(** [try { m } catch (err) {}]: the outcome is handed to the caller. *)
Definition attempt {A} (m : M A) : M (Result A) :=
  fun w =>
    match m w with
    | None => None
    | Some (r, w') => Some (Ok r, w')
    end.

(** The first rejection of a list of settled promises. *)
Fixpoint firstThrow {A} (rs : list (Result A)) : Result (list A) :=
  match rs with
  | [] => Ok []
  | Throw e :: _ => Throw e
  | Ok a :: rest => bindResult (firstThrow rest) (fun l => Ok (a :: l))
  end.

(** Every branch is started, in list order; none is cancelled. *)
Fixpoint settleAll {A B} (f : A -> M B) (l : list A) : M (list (Result B)) :=
  match l with
  | [] => ret []
  | x :: rest =>
      r ← attempt (f x);
      rs ← settleAll f rest;
      ret (r :: rs)
  end.

(** [l.forEach(f)] for an effectful callback. *)
Fixpoint forEachM {A} (f : A -> M unit) (l : list A) : M unit :=
  match l with
  | [] => ret tt
  | x :: rest => f x;; forEachM f rest
  end.

(** [await Promise.all(l.map(f))]. *)
Definition promiseAll {A B} (f : A -> M B) (l : list A) : M (list B) :=
  rs ← settleAll f l; liftResult (firstThrow rs).

(** * The loader *)

Section Loader.
Context `{Externals}.

(** [readFile]. *)
Definition readFile (loader : LoaderContext) (filePath : string) : M string :=
  emit (EvReadFile filePath);; liftResult (fs_readFile loader filePath).

Definition malformedImportMessage : string :=
  "#import statement must specify a quoted file path".

(** [lines.forEach]: each valid directive calls [loader.resolve] at once
    and pushes the pending promise; a malformed directive throws out of
    the loop, and the calls already made for earlier lines are left
    behind unawaited. *)
Fixpoint scanImports (loader : LoaderContext) (lines : list string)
  : M (list string) :=
  match lines with
  | [] => ret []
  | line :: rest =>
      match scanLine line with
      | NotImport => scanImports loader rest
      | MalformedImport => throw (Error malformedImportMessage)
      | Import filePath =>
          emit (EvResolve (context loader) filePath);;
          pendingImports ← scanImports loader rest;
          ret (filePath :: pendingImports)
      end
  end.

(** The callback of [loader.resolve]: an error rejects the promise, a
    result is recorded as a dependency and fulfils it. *)
Definition resolved (loader : LoaderContext) (filePath : string) : M string :=
  result ← liftResult (resolve loader (context loader) filePath);
  emit (EvAddDependency result);;
  ret result.

(** [extractImports]; [loadSource] is the recursive call. *)
Definition extractImports (loadSource : string -> M DocumentNode)
    (loader : LoaderContext) (source : string) (document : DocumentNode)
  : M DocumentNode :=
  let lines := splitLines source in
  imports ← scanImports loader lines;
  files ← promiseAll (resolved loader) imports;
  contents ← promiseAll (readFile loader) files;
  nodes ← promiseAll loadSource contents;
  let fragmentDefinitions :=
    fold_left (fun defs node => defs ++ definitions node) nodes [] in
  ret (setDefinitions document (definitions document ++ fragmentDefinitions)).

(** [loadSource].  Nothing bounds the recursion of the source (a file
    that imports itself is expanded for ever); [fuel] bounds the nesting
    depth that is followed. *)
Fixpoint loadSource (fuel : nat) (loader : LoaderContext) (source : string)
  : M DocumentNode :=
  match fuel with
  | O => pending
  | S fuel' =>
      document ← liftResult (graphqlParse source);
      extractImports (loadSource fuel' loader) loader source document
  end.

Definition schemaNotFoundMessage (schemaPath context : string) : string :=
  String.append "Could not find schema file '"
    (String.append schemaPath
       (String.append " from any parent of '" (String.append context "'"))).

(** [fsStat(fileName)] inside [try ... catch (err) {}]: a failing [stat]
    counts as no file. *)
Definition statIsFile (loader : LoaderContext) (fileName : string) : M bool :=
  emit (EvStat fileName);;
  ret (match fs_stat loader fileName with
       | Ok st => isFile st
       | Throw _ => false
       end).

(** The [while (true)] loop of [findSchemaFile], from [currentContext];
    [fuel] bounds the number of directory levels visited. *)
Fixpoint findSchemaFileFrom (fuel : nat) (loader : LoaderContext)
    (context schemaPath currentContext : string) : M string :=
  match fuel with
  | O => pending
  | S fuel' =>
      let fileName := join currentContext schemaPath in
      found ← statIsFile loader fileName;
      if found : bool then ret fileName
      else
        let parent := dirname currentContext in
        if String.eqb parent currentContext then
          throw (Error (schemaNotFoundMessage schemaPath context))
        else findSchemaFileFrom fuel' loader context schemaPath parent
  end.

Definition findSchemaFile (fuel : nat) (loader : LoaderContext)
    (context schemaPath : string) : M string :=
  findSchemaFileFrom fuel loader context schemaPath context.

(** The value [loadOptions] returns. *)
Record Options := mkLoaded {
  schema : option GraphQLSchema;
  output : OutputTarget;
  removeUnused : option bool
}.

Definition schemaRequiredMessage : string :=
  "schema option must be passed if validate is true".

(** JavaScript truthiness of an optional flag. *)
Definition truthyFlag (b : option bool) : bool :=
  match b with Some true => true | _ => false end.

Definition loadOptions (fuel : nat) (loader : LoaderContext) : M Options :=
  let options := getOptions loader in
  schema ←
    (if truthyFlag (opt_validate options) then
       match opt_schema options with
       | Some schemaOpt =>
           if String.eqb schemaOpt "" then throw (Error schemaRequiredMessage)
           else
             schemaPath ← findSchemaFile fuel loader (context loader) schemaOpt;
             emit (EvAddDependency schemaPath);;
             schemaString ← readFile loader schemaPath;
             built ← liftResult (buildClientSchema schemaString);
             ret (Some built)
       | None => throw (Error schemaRequiredMessage)
       end
     else ret None);
  ret {| schema := schema;
         output := match opt_output options with
                   | None | Some OutString => OutString
                   | Some OutDocument => OutDocument
                   end;
         removeUnused := opt_removeUnusedFragments options |}.

(** What the host gets back: an exception thrown before the callback
    exists, or the arguments of [done]. *)
Inductive LoaderResult :=
| Thrown (e : JSError)
| Done (r : Result string).

(** The body of the [try] block of [loader]. *)
Definition pipeline (fuel : nat) (this : LoaderContext) (source : string)
  : M string :=
  options ← loadOptions fuel this;
  document ← loadSource fuel this source;
  let document := removeDuplicateFragments document in
  document ← liftResult (removeSourceLocationsDoc document);
  let document :=
    if truthyFlag (removeUnused options) then removeUnusedFragments document
    else document in
  match schema options with
  | Some s =>
      let validationErrors := graphqlValidate s document in
      forEachM (fun err => emit (EvEmitError err)) validationErrors
  | None => ret tt
  end;;
  let output :=
    match output options with
    | OutDocument => stringifyDocument document
    | OutString => stringifyString (graphqlPrint document)
    end in
  ret (String.append "module.exports = " output).

Definition loader (fuel : nat) (this : LoaderContext) (source : string)
  : World -> option (LoaderResult * World) :=
  fun w =>
    let w := w ++ [EvCacheable] in
    if negb (async this) then
      Some (Thrown (Error "Loader does not support synchronous processing"), w)
    else
      match pipeline fuel this source w with
      | None => None
      | Some (r, w') => Some (Done r, w')
      end.

End Loader.

(** * Vocabulary of the statements

    What the properties below speak about: names and positions of
    fragments, spreads and reachability, the shape of object trees, the
    directory levels of the schema search, and a small concrete host. *)

(** ** Fragments by name *)

(** The names of the fragment definitions of a list. *)
Definition fragmentNames (defs : list DefinitionNode) : gset string :=
  list_to_set (omap fragmentName defs).

(** [def] is a fragment definition named [n]. *)
Definition namedFragment (n : string) (def : DefinitionNode) : bool :=
  match def with
  | FragmentDefinition nm _ _ => String.eqb (value nm) n
  | _ => false
  end.

(** A fragment of the same name as [def] occurs in [earlier]. *)
Definition seenBefore (earlier : list DefinitionNode) (def : DefinitionNode) : bool :=
  match def with
  | FragmentDefinition nm _ _ => existsb (namedFragment (value nm)) earlier
  | _ => false
  end.

(** ** Spreads and reachability *)

(** A spread of fragment [x] occurs in the selection set, at any depth
    below fields and inline fragments. *)
Inductive spreadsIn : SelectionSetNode -> string -> Prop :=
| spreads_here sels l n nl :
    In (FragmentSpread n nl) sels -> spreadsIn (SelectionSet sels l) (value n)
| spreads_field sels l fn ss fl x :
    In (Field fn (Some ss) fl) sels -> spreadsIn ss x ->
    spreadsIn (SelectionSet sels l) x
| spreads_inline sels l ss il x :
    In (InlineFragment ss il) sels -> spreadsIn ss x ->
    spreadsIn (SelectionSet sels l) x.

(** The selection set [findFragmentSpreads] walks for a definition. *)
Definition walkedSelectionSet (def : DefinitionNode) : option SelectionSetNode :=
  match def with
  | OperationDefinition _ ss _ | FragmentDefinition _ ss _ => Some ss
  | OtherDefinition _ _ => None
  end.

(** Transitive reachability from the operations of a document: [x] is
    spread by an operation, or by a fragment definition whose own name
    is reachable. *)
Inductive reachable (d : DocumentNode) : string -> Prop :=
| reach_operation n ss l x :
    In (OperationDefinition n ss l) (definitions d) ->
    spreadsIn ss x -> reachable d x
| reach_fragment nm ss l x :
    In (FragmentDefinition nm ss l) (definitions d) ->
    reachable d (value nm) -> spreadsIn ss x -> reachable d x.

(** Fragment [m] of the document spreads [x]. *)
Definition fragmentSpreads (d : DocumentNode) (m x : string) : Prop :=
  exists nm ss l, In (FragmentDefinition nm ss l) (definitions d)
                  /\ value nm = m /\ spreadsIn ss x.

(** No fragment of the document spreads itself, directly or through
    other fragments. *)
Definition acyclic (d : DocumentNode) : Prop :=
  forall n, ~ tc (fragmentSpreads d) n n.

(** The definitions a pass may not remove: operations, and fragments
    named by something reachable in [d0]. *)
Definition protected (d0 : DocumentNode) (def : DefinitionNode) : Prop :=
  isOperation def = true
  \/ exists n, fragmentName def = Some n /\ reachable d0 n.

(** The callback of [selections.forEach] in [traverse]. *)
Definition selectionStep (used : gset string) (selection : SelectionNode)
  : gset string :=
  match selection with
  | FragmentSpread name _ => {[value name]} ∪ used
  | Field _ (Some s) _ => traverse s used
  | Field _ None _ => used
  | InlineFragment s _ => traverse s used
  end.

(** What one selection contributes to the used-name set. *)
Definition selectionSpreads (s : SelectionNode) (x : string) : Prop :=
  match s with
  | FragmentSpread n _ => x = value n
  | Field _ (Some ss) _ => spreadsIn ss x
  | Field _ None _ => False
  | InlineFragment ss _ => spreadsIn ss x
  end.

(** The callback of [definitions.forEach] in [findFragmentSpreads]. *)
Definition definitionStep (used : gset string) (def : DefinitionNode)
  : gset string :=
  match def with
  | OperationDefinition _ s _ => traverse s used
  | FragmentDefinition _ s _ => traverse s used
  | OtherDefinition _ _ => used
  end.

(** [names] leads to [x] along spreads: the head spreads [x], and every
    later name spreads the one before it. *)
Fixpoint spreadChain (R : string -> string -> Prop) (names : list string)
    (x : string) : Prop :=
  match names with
  | [] => True
  | m :: rest => R m x /\ spreadChain R rest m
  end.

(** [n] is the name of a fragment definition of the document. *)
Definition isFragmentName (d : DocumentNode) (n : string) : Prop :=
  exists nm ss l, In (FragmentDefinition nm ss l) (definitions d) /\ value nm = n.

(** A ranking that rises along every spread of a fragment definition
    rules out cycles; it is checked by evaluation. *)
Definition respectsRank (rank : string -> nat) (d : DocumentNode) : bool :=
  forallb
    (fun def =>
       match def with
       | FragmentDefinition nm ss _ =>
           forallb (fun x => Nat.ltb (rank (value nm)) (rank x))
                   (elements (traverse ss ∅))
       | _ => true
       end)
    (definitions d).

(** A fragment that spreads itself keeps itself alive. *)
Definition selfSpreading : DocumentNode :=
  mkDocument
    [FragmentDefinition (mkName "A" None)
       (SelectionSet [FragmentSpread (mkName "A" None) None] None) None]
    None.

(** Operation [Q] uses fragment [A]; fragment [B] is unused and is the
    only user of fragment [C]. *)
Definition scenarioC : DocumentNode :=
  let nm s := mkName s None in
  let spread s := FragmentSpread (nm s) None in
  let sel l := SelectionSet l None in
  mkDocument
    [ OperationDefinition (Some (nm "Q")) (sel [spread "A"]) None;
      FragmentDefinition (nm "A") (sel [Field (nm "id") None None]) None;
      FragmentDefinition (nm "B") (sel [spread "C"]) None;
      FragmentDefinition (nm "C") (sel [Field (nm "id") None None]) None ]
    None.

(** Induction over selections and the selection sets nested in them. *)
Section SelectionInduction.
Variables (P : SelectionNode -> Prop) (Q : SelectionSetNode -> Prop).
Hypothesis HLeaf : forall n l, P (Field n None l).
Hypothesis HField : forall n ss l, Q ss -> P (Field n (Some ss) l).
Hypothesis HSpread : forall n l, P (FragmentSpread n l).
Hypothesis HInline : forall ss l, Q ss -> P (InlineFragment ss l).
Hypothesis HSet : forall sels l, Forall P sels -> Q (SelectionSet sels l).

Fixpoint selection_nested_ind (s : SelectionNode) : P s :=
  match s with
  | Field n None l => HLeaf n l
  | Field n (Some ss) l => HField n ss l (selectionSet_nested_ind ss)
  | FragmentSpread n l => HSpread n l
  | InlineFragment ss l => HInline ss l (selectionSet_nested_ind ss)
  end
with selectionSet_nested_ind (ss : SelectionSetNode) : Q ss :=
  match ss with
  | SelectionSet sels l =>
      HSet sels l
        ((fix all (sels : list SelectionNode) : Forall P sels :=
            match sels return Forall P sels with
            | [] => @List.Forall_nil _ P
            | s :: rest =>
                @List.Forall_cons _ P s rest (selection_nested_ind s) (all rest)
            end) sels)
  end.
End SelectionInduction.

(** ** Object trees *)

(** Induction over a value and the values nested in it. *)
Section JSValueInduction.
Variable P : JSValue -> Prop.
Hypothesis HUndefined : P JUndefined.
Hypothesis HNull : P JNull.
Hypothesis HBool : forall b, P (JBool b).
Hypothesis HNumber : forall n, P (JNumber n).
Hypothesis HString : forall s, P (JString s).
Hypothesis HArray : forall elems, Forall P elems -> P (JArray elems).
Hypothesis HObject :
  forall props, Forall (fun kv => P (snd kv)) props -> P (JObject props).

Fixpoint JSValue_nested_ind (v : JSValue) : P v :=
  match v with
  | JUndefined => HUndefined
  | JNull => HNull
  | JBool b => HBool b
  | JNumber n => HNumber n
  | JString s => HString s
  | JArray elems =>
      HArray elems
        ((fix all (l : list JSValue) : Forall P l :=
            match l return Forall P l with
            | [] => @List.Forall_nil _ P
            | x :: rest =>
                @List.Forall_cons _ P x rest (JSValue_nested_ind x) (all rest)
            end) elems)
  | JObject props =>
      HObject props
        ((fix all (l : list (string * JSValue))
            : Forall (fun kv => P (snd kv)) l :=
            match l return Forall (fun kv => P (snd kv)) l with
            | [] => @List.Forall_nil _ _
            | kv :: rest =>
                @List.Forall_cons _ (fun kv => P (snd kv)) kv rest
                  (JSValue_nested_ind (snd kv)) (all rest)
            end) props)
  end.
End JSValueInduction.

(** The callback applied to each property value (and to each element,
    when the walked value is itself an array). *)
Definition visitValue (value : JSValue) : Result JSValue :=
  match value with
  | JArray vals =>
      bindResult (mapResult removeSourceLocations vals)
                 (fun vals' => Ok (JArray vals'))
  | JObject _ => removeSourceLocations value
  | _ => Ok value
  end.

(** The keys removed by [if (document.loc) delete document.loc]. *)
Definition locDeleted (props : list (string * JSValue)) (k : string) : bool :=
  if truthy (getProp "loc" props) then String.eqb k "loc" else false.

(** None of the properties is called [loc]. *)
Definition noLocKey (props : list (string * JSValue)) : bool :=
  forallb (fun kv => negb (String.eqb (fst kv) "loc")) props.

(** The value of [node.loc] for a typed node. *)
Definition locValue (l : option Location) : JSValue :=
  match l with
  | Some l => JObject [("start", JNumber (loc_start l));
                       ("end", JNumber (loc_end l))]
  | None => JUndefined
  end.

(** A parsed [{ id(x: false) }], with the fields the typed model leaves
    out: [null] and [undefined] children, an empty sequence, arguments. *)
Definition sampleTree : JSValue :=
  JObject
    [("kind", JString "Document");
     ("definitions",
      JArray
        [JObject
           [("kind", JString "OperationDefinition");
            ("name", JNull);
            ("variableDefinitions", JUndefined);
            ("directives", JArray []);
            ("selectionSet",
             JObject
               [("kind", JString "SelectionSet");
                ("selections",
                 JArray
                   [JObject
                      [("kind", JString "Field");
                       ("alias", JNull);
                       ("name",
                        JObject [("kind", JString "Name");
                                 ("value", JString "id");
                                 ("loc", JObject [("start", JNumber 8);
                                                  ("end", JNumber 10)])]);
                       ("arguments",
                        JArray
                          [JObject
                             [("kind", JString "Argument");
                              ("value",
                               JObject [("kind", JString "BooleanValue");
                                        ("value", JBool false);
                                        ("loc", JObject [("start", JNumber 0)])])]]);
                       ("selectionSet", JNull);
                       ("loc", JObject [("start", JNumber 8);
                                        ("end", JNumber 10)])]]);
                ("loc", JObject [("start", JNumber 6); ("end", JNumber 12)])]);
            ("loc", JObject [("start", JNumber 0); ("end", JNumber 12)])]]);
     ("loc", JObject [("start", JNumber 0); ("end", JNumber 12)])].

(** ** Import lines *)

(** Every character of the string satisfies [ok]. *)
Fixpoint allChars (ok : ascii -> bool) (s : string) : bool :=
  match s with
  | EmptyString => true
  | String c rest => ok c && allChars ok rest
  end.

(** A character of a path that needs no care: not a space, not a quote,
    not a line terminator. *)
Definition plainChar (c : ascii) : bool :=
  negb (Ascii.eqb c " "%char) && negb (isQuote c) && negb (isLineTerminator c).

(** [#import ] followed by [path] between two quotes [q]. *)
Definition importLine (q : ascii) (path : string) : string :=
  String.append "#import "
    (String q (String.append path (String q EmptyString))).

(** ** Events of a computation *)

(** Every event added by a computation satisfies [P]. *)
Definition logs (P : Event -> Prop) {A} (m : M A) : Prop :=
  forall w r w', m w = Some (r, w') -> exists evs, w' = w ++ evs /\ Forall P evs.

(** The directory handed to [loader.resolve] is [dir]. *)
Definition resolvesAgainst (dir : string) (ev : Event) : Prop :=
  match ev with
  | EvResolve base _ => base = dir
  | _ => True
  end.

(** ** Directory levels and the loader's outcome *)

Section HostVocabulary.
Context `{Externals}.

(** The [k]-th parent of a directory. *)
Definition ancestor (k : nat) (dir : string) : string := Nat.iter k dirname dir.

(** [stat] succeeds at the path and reports a regular file. *)
Definition isFileAt (loader : LoaderContext) (fileName : string) : bool :=
  match fs_stat loader fileName with
  | Ok st => isFile st
  | Throw _ => false
  end.

(** The candidate paths from level [i] up to level [i + m]. *)
Definition candidates (context schemaPath : string) (i m : nat) : list string :=
  List.map (fun k => join (ancestor k context) schemaPath) (seq i (S m)).

(** The candidates looked at: all up to and including the first file. *)
Fixpoint examined (loader : LoaderContext) (paths : list string) : list string :=
  match paths with
  | [] => []
  | p :: rest => p :: (if isFileAt loader p then [] else examined loader rest)
  end.

(** What the search over [paths] comes to. *)
Definition searchResult (loader : LoaderContext) (context schemaPath : string)
    (paths : list string) : Result string :=
  match List.find (isFileAt loader) paths with
  | Some fileName => Ok fileName
  | None => Throw (Error (schemaNotFoundMessage schemaPath context))
  end.

(** The document handed to the validator and to the serializer. *)
Definition finalDocument (options : Options) (document : DocumentNode)
  : DocumentNode :=
  let cleared := Encode.clearLocations (removeDuplicateFragments document) in
  if truthyFlag (removeUnused options) then removeUnusedFragments cleared
  else cleared.

(** The module text handed to the callback. *)
Definition payload (options : Options) (document : DocumentNode) : string :=
  String.append "module.exports = "
    (match output options with
     | OutDocument => stringifyDocument document
     | OutString => stringifyString (graphqlPrint document)
     end).

End HostVocabulary.

(** * A small host, for concrete runs *)

Module Sample.

Definition unknownFragment : JSError := Error "Unknown fragment F".
Definition unknownType : JSError := Error "Unknown type T".

(** Stand-ins for the libraries: every source parses to one anonymous
    operation, and the validator always has two complaints. *)
Definition libraries : Externals := {|
  GraphQLSchema := unit;
  graphqlParse := fun _ =>
    Ok (mkDocument
          [OperationDefinition None
             (SelectionSet [] (Some (mkLocation 0 2))) (Some (mkLocation 0 2))]
          (Some (mkLocation 0 2)));
  graphqlPrint := fun _ => "{ }";
  graphqlValidate := fun _ _ => [unknownFragment; unknownType];
  buildClientSchema := fun _ => Ok tt;
  stringifyString := fun s => s;
  stringifyDocument := fun _ => "{}";
  join := fun dir name => String.append dir (String.append "/" name);
  dirname := fun dir => if String.eqb dir "/a/sub" then "/a" else "/"
|}.

Definition enoent {A} (path : string) : Result A :=
  Throw (Error (String.append "ENOENT: " path)).

(** The files: [/a/schema.json], [/a/sub/b.graphql] (which imports its
    neighbour [./c.graphql]) and [/a/sub/c.graphql]. *)
Definition files (path : string) : Result string :=
  if String.eqb path "/a/schema.json" then Ok "{}"
  else if String.eqb path "/a/sub/b.graphql" then Ok "#import './c.graphql'"
  else if String.eqb path "/a/sub/c.graphql" then Ok "fragment C on T { id }"
  else enoent path.

Definition host (dir : string) (options : LoaderOptions) : LoaderContext := {|
  context := dir;
  resolve := fun base request =>
    match request with
    | String "." (String "/" relative) =>
        Ok (String.append base (String.append "/" relative))
    | _ => Throw (Error (String.append "Module not found: " request))
    end;
  fs_readFile := files;
  fs_stat := fun path =>
    match files path with
    | Ok _ => Ok (mkStats true)
    | Throw e => Throw e
    end;
  getOptions := options;
  async := true
|}.

Definition noOptions : LoaderOptions := mkOptions None None None None.

Definition validating : LoaderOptions :=
  mkOptions (Some "schema.json") (Some true) None None.

Definition validateOnly : LoaderOptions :=
  mkOptions None (Some true) None None.

(** What [libraries] parses any source to. *)
Definition parsedSample : DocumentNode :=
  mkDocument
    [OperationDefinition None
       (SelectionSet [] (Some (mkLocation 0 2))) (Some (mkLocation 0 2))]
    (Some (mkLocation 0 2)).

(** The events of loading [validating] options from [/a/sub]. *)
Definition optionsLoaded : World :=
  [EvCacheable; EvStat "/a/sub/schema.json"; EvStat "/a/schema.json";
   EvAddDependency "/a/schema.json"; EvReadFile "/a/schema.json"].

End Sample.

(** ** Further vocabulary: sub-documents that support themselves *)

(** Every fragment definition of the list is spread by some operation or
    fragment definition of the same list. *)
Definition selfSupporting (defs : list DefinitionNode) : Prop :=
  forall nm ss l, In (FragmentDefinition nm ss l) defs ->
    exists def ss', In def defs /\ walkedSelectionSet def = Some ss'
                    /\ spreadsIn ss' (value nm).

(** ** Further vocabulary: exceptions *)

(** The exception is a [TypeError]. *)
Definition isTypeError (e : JSError) : Prop := exists m, e = TypeError m.

(** ** Further vocabulary: lines of a source text *)

(** [pieces.join("")]. *)
Definition joinPieces (pieces : list string) : string :=
  fold_right String.append EmptyString pieces.

(** One of the three separators the split captures. *)
Definition isSeparator (s : string) : bool :=
  String.eqb s (String CR (String LF EmptyString))
  || String.eqb s (String CR EmptyString)
  || String.eqb s (String LF EmptyString).

Definition notLineTerminator (c : ascii) : bool := negb (isLineTerminator c).

(** A line, then separator and line in turn; no line holds a line
    terminator. *)
Fixpoint linesAndSeparators (pieces : list string) : bool :=
  match pieces with
  | [] => false
  | [line] => allChars notLineTerminator line
  | line :: sep :: rest =>
      allChars notLineTerminator line && isSeparator sep
      && linesAndSeparators rest
  end.

(** The text after [#import ] does not open with a quote. *)
Definition opensUnquoted (rest : string) : bool :=
  match rest with
  | EmptyString => true
  | String c _ => negb (isQuote c)
  end.

(** ** Further vocabulary: the directives of a source *)

(** The paths of the import directives among the lines, in order. *)
Definition directivePaths (lines : list string) : list string :=
  omap (fun line => match scanLine line with
                    | Import filePath => Some filePath
                    | _ => None
                    end) lines.

(** No line is a malformed directive. *)
Definition wellFormedLines (lines : list string) : bool :=
  forallb (fun line => match scanLine line with
                       | MalformedImport => false
                       | _ => true
                       end) lines.

(** No line is a directive at all. *)
Definition importFree (source : string) : bool :=
  forallb (fun line => match scanLine line with
                       | NotImport => true
                       | _ => false
                       end) (splitLines source).

(** The dependencies recorded for settled [resolve] calls: one for each
    success. *)
Definition dependencyEvents (results : list (Result string)) : list Event :=
  flat_map (fun r => match r with
                     | Ok file => [EvAddDependency file]
                     | Throw _ => []
                     end) results.

(** Every file read was recorded as a dependency earlier in the log. *)
Definition readsRecorded (evs : list Event) : Prop :=
  forall before file after,
    evs = before ++ EvReadFile file :: after ->
    In (EvAddDependency file) before.

Definition isReadFile (ev : Event) : bool :=
  match ev with EvReadFile _ => true | _ => false end.

(** What a computation adds to the log satisfies [Q]. *)
Definition adds (Q : list Event -> Prop) {A} (m : M A) : Prop :=
  forall w r w', m w = Some (r, w') -> exists evs, w' = w ++ evs /\ Q evs.




(** ** A second host, with imports that matter

    The parser stand-in tells two sources apart: the file
    [/p/f.graphql] defines fragment [F] with the field [name]; any other
    source is an operation spreading [F] followed by its own fragment [F]
    with the field [id].  The file [/p/loop.graphql] imports itself. *)
Module Imports.

Definition fragmentF (field : string) : DefinitionNode :=
  FragmentDefinition (mkName "F" None)
    (SelectionSet [Field (mkName field None) None None] None) None.

Definition spreadingF : DefinitionNode :=
  OperationDefinition None
    (SelectionSet [FragmentSpread (mkName "F" None) None] None) None.

Definition libraries : Externals := {|
  GraphQLSchema := unit;
  graphqlParse := fun source =>
    if String.eqb source "fragment F on T { name }"
    then Ok (mkDocument [fragmentF "name"] None)
    else Ok (mkDocument [spreadingF; fragmentF "id"] None);
  graphqlPrint := fun _ => "{ }";
  graphqlValidate := fun _ _ => [];
  buildClientSchema := fun _ => Ok tt;
  stringifyString := fun s => s;
  stringifyDocument := fun _ => "{}";
  join := fun dir name => String.append dir (String.append "/" name);
  dirname := fun _ => "/"
|}.

Definition files (path : string) : Result string :=
  if String.eqb path "/p/f.graphql" then Ok "fragment F on T { name }"
  else if String.eqb path "/p/loop.graphql" then Ok "#import './loop.graphql'"
  else Sample.enoent path.

Definition host (options : LoaderOptions) : LoaderContext := {|
  context := "/p";
  resolve := fun base request =>
    match request with
    | String "." (String "/" relative) =>
        Ok (String.append base (String.append "/" relative))
    | _ => Throw (Error (String.append "Module not found: " request))
    end;
  fs_readFile := files;
  fs_stat := fun path =>
    match files path with
    | Ok _ => Ok (mkStats true)
    | Throw e => Throw e
    end;
  getOptions := options;
  async := true
|}.

End Imports.

(** * Properties of fragment deduplication *)

Section Dedup.

Lemma fragmentNames_cons_fragment nm ss l defs :
  fragmentNames (FragmentDefinition nm ss l :: defs)
  = {[value nm]} ∪ fragmentNames defs.
Proof. reflexivity. Qed.

Lemma elem_of_fragmentNames n defs :
  n ∈ fragmentNames defs <-> existsb (namedFragment n) defs = true.
Proof.
  unfold fragmentNames. rewrite elem_of_list_to_set, list_elem_of_omap.
  rewrite existsb_exists. split.
  - intros (def & Hin & Hn). exists def. split; [by apply list_elem_of_In|].
    destruct def; simpl in *; try discriminate.
    injection Hn as ->. apply String.eqb_refl.
  - intros (def & Hin & Hn). exists def. split; [by apply list_elem_of_In|].
    destruct def; simpl in *; try discriminate.
    apply String.eqb_eq in Hn. by subst.
Qed.

Lemma filterDuplicates_app used pre post :
  filterDuplicates used (pre ++ post)
  = filterDuplicates used pre
    ++ filterDuplicates (used ∪ fragmentNames pre) post.
Proof.
  revert used. induction pre as [|def pre IH]; intros used; simpl.
  - f_equal. unfold fragmentNames. simpl. set_solver.
  - destruct def as [n ss l|nm ss l|k l]; simpl.
    + rewrite IH. reflexivity.
    + rewrite fragmentNames_cons_fragment. case_bool_decide as Hin.
      * rewrite IH. do 2 f_equal. set_solver.
      * simpl. rewrite IH. do 3 f_equal. set_solver.
    + rewrite IH. reflexivity.
Qed.

Lemma filterDuplicates_named used n defs :
  List.filter (namedFragment n) (filterDuplicates used defs)
  = if bool_decide (n ∈ used) then []
    else firstn 1 (List.filter (namedFragment n) defs).
Proof.
  revert used. induction defs as [|def defs IH]; intros used; simpl.
  - by case_bool_decide.
  - destruct def as [nm ss l|nm ss l|k l]; simpl; try apply IH.
    destruct (String.eqb_spec (value nm) n) as [Heq|Hne].
    + subst n. destruct (decide (value nm ∈ used)) as [Hin|Hin].
      * rewrite !bool_decide_eq_true_2 by done.
        rewrite IH, bool_decide_eq_true_2 by done. reflexivity.
      * rewrite !bool_decide_eq_false_2 by done. simpl.
        rewrite String.eqb_refl, IH, bool_decide_eq_true_2 by set_solver.
        reflexivity.
    + destruct (decide (value nm ∈ used)) as [Hin|Hin].
      * rewrite bool_decide_eq_true_2 by done. apply IH.
      * rewrite bool_decide_eq_false_2 by done. simpl.
        rewrite (proj2 (String.eqb_neq _ _) Hne), IH.
        destruct (decide (n ∈ used)) as [Hn|Hn].
        -- rewrite !bool_decide_eq_true_2 by set_solver. reflexivity.
        -- rewrite !bool_decide_eq_false_2 by set_solver. reflexivity.
Qed.

Lemma filterDuplicates_others used defs :
  List.filter (fun def => negb (isFragment def)) (filterDuplicates used defs)
  = List.filter (fun def => negb (isFragment def)) defs.
Proof.
  revert used. induction defs as [|def defs IH]; intros used; simpl; [done|].
  destruct def as [nm ss l|nm ss l|k l]; simpl; rewrite ?IH; try done.
  case_bool_decide; simpl; apply IH.
Qed.

Lemma filterDuplicates_sublist used defs :
  filterDuplicates used defs `sublist_of` defs.
Proof.
  revert used. induction defs as [|def defs IH]; intros used; simpl.
  - constructor.
  - destruct def as [nm ss l|nm ss l|k l]; try (constructor; apply IH).
    case_bool_decide; [apply sublist_cons|apply sublist_skip]; apply IH.
Qed.

(** C4. [removeDuplicateFragments] keeps, for each fragment name, exactly
    the earliest definition of that name; the definition at any position
    is dropped if and only if it is a fragment whose name is that of a
    fragment at an earlier position; every definition that is not a
    fragment (operations among them) is kept; and the output is a
    subsequence of the input, so relative order is preserved. *)
Theorem removeDuplicateFragments_first_wins (document : DocumentNode) :
  let defs := definitions document in
  let out := definitions (removeDuplicateFragments document) in
  (forall n, List.filter (namedFragment n) out
             = firstn 1 (List.filter (namedFragment n) defs))
  /\ (forall pre def post, defs = pre ++ def :: post ->
        exists post', post' `sublist_of` post /\
          out = filterDuplicates ∅ pre
                ++ (if seenBefore pre def then [] else [def]) ++ post')
  /\ List.filter (fun def => negb (isFragment def)) out
     = List.filter (fun def => negb (isFragment def)) defs
  /\ (forall def, In def defs -> isOperation def = true -> In def out)
  /\ out `sublist_of` defs.
Proof.
  simpl. repeat split.
  - intros n. rewrite filterDuplicates_named. by rewrite bool_decide_eq_false_2.
  - intros pre def post ->.
    change (pre ++ def :: post) with (pre ++ [def] ++ post).
    rewrite app_assoc, filterDuplicates_app, filterDuplicates_app.
    exists (filterDuplicates (∅ ∪ fragmentNames (pre ++ [def])) post).
    split; [apply filterDuplicates_sublist|].
    rewrite <- app_assoc. do 2 f_equal.
    destruct def as [nm ss l|nm ss l|k l]; simpl; try reflexivity.
    case_bool_decide as Hin.
    + rewrite (proj1 (elem_of_fragmentNames _ _)) by set_solver. reflexivity.
    + destruct (existsb _ pre) eqn:Hex; [|reflexivity].
      apply elem_of_fragmentNames in Hex. set_solver.
  - apply filterDuplicates_others.
  - intros def Hin Hop.
    assert (Hf : In def (List.filter (fun def => negb (isFragment def))
                           (definitions document))).
    { apply filter_In. split; [done|]. by destruct def. }
    rewrite <- (filterDuplicates_others ∅) in Hf.
    apply filter_In in Hf. tauto.
  - apply filterDuplicates_sublist.
Qed.

End Dedup.

(** * Properties of unused-fragment pruning *)

Lemma filter_length_le {A} (f : A -> bool) (l : list A) :
  length (List.filter f l) <= length l.
Proof.
  induction l as [|a l IH]; simpl; [lia|]. destruct (f a); simpl; lia.
Qed.

Lemma traverse_unfold sels l used :
  traverse (SelectionSet sels l) used = fold_left selectionStep sels used.
Proof. reflexivity. Qed.

Lemma fold_left_selectionStep (P : SelectionNode -> string -> Prop) sels x :
  Forall (fun s => forall used, x ∈ selectionStep used s <-> x ∈ used \/ P s x) sels ->
  forall used, x ∈ fold_left selectionStep sels used
               <-> x ∈ used \/ exists s, In s sels /\ P s x.
Proof.
  induction 1 as [|s sels Hs _ IH]; intros used; simpl.
  - split; [tauto|]. intros [?|(? & [] & _)]. done.
  - rewrite IH, Hs. split.
    + intros [[?|?]|(s' & ? & ?)]; eauto 6.
    + intros [?|(s' & [<-|?] & ?)]; eauto 6.
Qed.

Lemma spreadsIn_selections sels l x :
  spreadsIn (SelectionSet sels l) x
  <-> exists s, In s sels /\ selectionSpreads s x.
Proof.
  split.
  - inversion 1; subst; eexists; (split; [eassumption|]); simpl; done.
  - intros (s & Hin & Hs). destruct s as [fn [ss|] fl|n nl|ss il]; simpl in Hs.
    + eapply spreads_field; eauto.
    + done.
    + subst. eapply spreads_here; eauto.
    + eapply spreads_inline; eauto.
Qed.

Lemma traverse_spec ss x :
  forall used, x ∈ traverse ss used <-> x ∈ used \/ spreadsIn ss x.
Proof.
  induction ss using selectionSet_nested_ind
    with (P := fun s => forall used,
                 x ∈ selectionStep used s <-> x ∈ used \/ selectionSpreads s x).
  - intros used. simpl. tauto.
  - intros used. simpl. apply IHss.
  - intros used. simpl. set_solver.
  - intros used. simpl. apply IHss.
  - intros used. rewrite traverse_unfold, spreadsIn_selections.
    by apply fold_left_selectionStep.
Qed.

(** The used-name set of a pass: the names spread by some operation or
    fragment definition currently in the document. *)
Lemma findFragmentSpreads_spec d x :
  x ∈ findFragmentSpreads d ∅
  <-> exists def ss, In def (definitions d)
                     /\ walkedSelectionSet def = Some ss /\ spreadsIn ss x.
Proof.
  unfold findFragmentSpreads.
  change (fun used def => _) with definitionStep.
  assert (Hgen : forall defs used,
    x ∈ fold_left definitionStep defs used
    <-> x ∈ used \/ exists def ss, In def defs
          /\ walkedSelectionSet def = Some ss /\ spreadsIn ss x).
  { induction defs as [|def defs IH]; intros used; simpl.
    - split; [tauto|]. intros [?|(? & ? & [] & _)]. done.
    - rewrite IH. split.
      + intros [Hx|(def' & ss & ? & ? & ?)]; [|eauto 8].
        destruct def; simpl in Hx; [apply traverse_spec in Hx as [?|?]..|];
          eauto 10.
      + intros [Hx|(def' & ss & [<-|?] & Hw & ?)]; [| |eauto 8].
        * left. destruct def; simpl; rewrite ?traverse_spec; tauto.
        * left. destruct def; simpl in *; try discriminate;
            injection Hw as <-; rewrite traverse_spec; tauto. }
  rewrite Hgen. set_solver.
Qed.

Lemma removeUnusedFragments_step d :
  removeUnusedFragments d
  = if Nat.eqb (length (definitions d)) (length (definitions (sweep d)))
    then sweep d else removeUnusedFragments (sweep d).
Proof.
  rewrite removeUnusedFragments_equation_1.
  unfold removeUnusedFragments_unfold_clause_1.
  generalize (inspect (Nat.eqb (length (definitions d))
                               (length (definitions (sweep d))))).
  intros [[] Heq]; rewrite Heq; reflexivity.
Qed.

Lemma filter_same_length {A} (f : A -> bool) (l : list A) :
  length (List.filter f l) = length l -> List.filter f l = l.
Proof.
  induction l as [|a l IH]; simpl; [done|].
  destruct (f a); simpl; intros Hlen.
  - f_equal. apply IH. lia.
  - pose proof (filter_length_le f l). lia.
Qed.

(** A pass that removes nothing leaves the document as it is. *)
Lemma sweep_same_length d :
  length (definitions d) = length (definitions (sweep d)) -> sweep d = d.
Proof.
  intros Hlen. destruct d as [defs l]. unfold sweep, setDefinitions in *.
  simpl in *. f_equal. by apply filter_same_length.
Qed.

(** Induction along the passes of [removeUnusedFragments]. *)
Lemma removeUnusedFragments_passes (P : DocumentNode -> DocumentNode -> Prop) :
  (forall d, sweep d = d -> P d d) ->
  (forall d r, length (definitions (sweep d)) < length (definitions d) ->
               P (sweep d) r -> P d r) ->
  forall d, P d (removeUnusedFragments d).
Proof.
  intros Hstop Hpass d.
  remember (length (definitions d)) as k eqn:Hk.
  revert d Hk. induction k as [k IH] using lt_wf_ind. intros d ->.
  rewrite removeUnusedFragments_step.
  destruct (Nat.eqb_spec (length (definitions d))
                         (length (definitions (sweep d)))) as [Heq|Hne].
  - rewrite (sweep_same_length d Heq). apply Hstop.
    by apply sweep_same_length.
  - assert (Hlt : length (definitions (sweep d)) < length (definitions d)).
    { pose proof (filter_length_le
        (keepDefinition (findFragmentSpreads d ∅)) (definitions d)).
      unfold sweep in *. simpl in *. lia. }
    apply Hpass; [done|]. by eapply IH.
Qed.

(** The result is a fixed point of the pass. *)
Lemma removeUnusedFragments_fixed d :
  sweep (removeUnusedFragments d) = removeUnusedFragments d.
Proof.
  apply (removeUnusedFragments_passes (fun _ r => sweep r = r)); auto.
Qed.

Lemma sweep_In d def :
  In def (definitions (sweep d))
  <-> In def (definitions d)
      /\ keepDefinition (findFragmentSpreads d ∅) def = true.
Proof. unfold sweep. simpl. apply filter_In. Qed.

Lemma removeUnusedFragments_subset d def :
  In def (definitions (removeUnusedFragments d)) -> In def (definitions d).
Proof.
  apply (removeUnusedFragments_passes
           (fun d r => In def (definitions r) -> In def (definitions d))).
  - auto.
  - intros d' r _ IH Hin. apply IH in Hin. apply sweep_In in Hin. tauto.
Qed.

(** Every fragment that survives is spread by a definition that
    survives. *)
Lemma removeUnusedFragments_spread d nm ss l :
  let r := removeUnusedFragments d in
  In (FragmentDefinition nm ss l) (definitions r) ->
  exists def ss', In def (definitions r)
                  /\ walkedSelectionSet def = Some ss'
                  /\ spreadsIn ss' (value nm).
Proof.
  intros r Hin. subst r. rewrite <- removeUnusedFragments_fixed in Hin.
  apply sweep_In in Hin as [_ Hkeep]. simpl in Hkeep.
  apply bool_decide_eq_true in Hkeep.
  by apply findFragmentSpreads_spec.
Qed.

Lemma sweep_keeps_protected d0 d :
  (forall def, In def (definitions d0) -> protected d0 def ->
               In def (definitions d)) ->
  forall def, In def (definitions d0) -> protected d0 def ->
              In def (definitions (sweep d)).
Proof.
  intros Hinv def Hin Hprot. apply sweep_In. split; [by apply Hinv|].
  destruct Hprot as [Hop|(x & Hname & Hreach)].
  - by destruct def.
  - destruct def as [n ss l|nm ss l|k l]; simpl in *; try discriminate.
    injection Hname as ->. apply bool_decide_eq_true.
    apply findFragmentSpreads_spec.
    destruct Hreach as [n' ss' l' x Hop Hsp|nm' ss' l' x Hfrag Hr Hsp].
    + exists (OperationDefinition n' ss' l'), ss'. split; [|done].
      apply Hinv; [done|]. by left.
    + exists (FragmentDefinition nm' ss' l'), ss'. split; [|done].
      apply Hinv; [done|]. right. by exists (value nm').
Qed.

(** C5. [removeUnusedFragments] keeps every operation definition and
    every fragment definition whose name is transitively reachable,
    through fragment spreads, from an operation of the document. *)
Theorem removeUnusedFragments_keeps_reachable (d : DocumentNode)
    (def : DefinitionNode) :
  In def (definitions d) ->
  isOperation def = true
    \/ (exists n, fragmentName def = Some n /\ reachable d n) ->
  In def (definitions (removeUnusedFragments d)).
Proof.
  intros Hin Hprot. revert def Hin Hprot.
  change (forall def, In def (definitions d) -> protected d def ->
                      In def (definitions (removeUnusedFragments d))).
  assert (Hgen : forall d',
    (forall def, In def (definitions d) -> protected d def ->
                 In def (definitions d')) ->
    forall def, In def (definitions d) -> protected d def ->
                In def (definitions (removeUnusedFragments d'))).
  { intros d'.
    apply (removeUnusedFragments_passes
      (fun d' r =>
         (forall def, In def (definitions d) -> protected d def ->
                      In def (definitions d')) ->
         forall def, In def (definitions d) -> protected d def ->
                     In def (definitions r))).
    - auto.
    - intros d1 r _ IH Hinv. apply IH. by apply sweep_keeps_protected. }
  apply Hgen. auto.
Qed.

(** C7. Pruning is idempotent. *)
Theorem removeUnusedFragments_idempotent (d : DocumentNode) :
  removeUnusedFragments (removeUnusedFragments d) = removeUnusedFragments d.
Proof.
  rewrite removeUnusedFragments_step.
  rewrite removeUnusedFragments_fixed, Nat.eqb_refl. reflexivity.
Qed.

(** ** Retained fragments and reachability *)

Lemma no_operation_unreachable d :
  (forall def, In def (definitions d) -> isOperation def = false) ->
  forall x, ~ reachable d x.
Proof.
  intros Hnone x Hreach. induction Hreach as [n ss l x Hin _|]; [|done].
  apply Hnone in Hin. discriminate.
Qed.

Lemma spreadChain_tc R l2 a l3 b :
  spreadChain R (l2 ++ a :: l3) b -> tc R a b.
Proof.
  revert b. induction l2 as [|m l2 IH]; intros b; simpl.
  - intros [Hab _]. by apply tc_once.
  - intros [Hmb Hrest]. eapply tc_r; [by apply IH|done].
Qed.

Lemma spreadChain_suffix R l1 rest x :
  spreadChain R (l1 ++ rest) x -> exists y, spreadChain R rest y.
Proof.
  revert x. induction l1 as [|m l1 IH]; intros x; simpl; [eauto|].
  intros [_ Hrest]. eauto.
Qed.

(** A chain with a repeated name contains a cycle. *)
Lemma spreadChain_repeat R l1 a l2 l3 x :
  spreadChain R (l1 ++ a :: l2 ++ a :: l3) x -> tc R a a.
Proof.
  intros Hchain. apply spreadChain_suffix in Hchain as [y Hchain].
  simpl in Hchain. destruct Hchain as [_ Hchain].
  by eapply spreadChain_tc.
Qed.

Lemma isFragmentName_In d n :
  isFragmentName d n -> In n (omap fragmentName (definitions d)).
Proof.
  intros (nm & ss & l & Hin & <-). apply list_elem_of_In, list_elem_of_omap.
  exists (FragmentDefinition nm ss l). split; [by apply list_elem_of_In|done].
Qed.

(** Following spreads backwards from a surviving fragment either ends at
    an operation or goes on for as long as one likes. *)
Lemma retained_chain d k :
  let r := removeUnusedFragments d in
  forall n, isFragmentName r n ->
    reachable r n
    \/ exists names, length names = k
         /\ Forall (isFragmentName r) names
         /\ spreadChain (fragmentSpreads r) names n.
Proof.
  intros r. induction k as [|k IH]; intros n Hn.
  - right. exists []. by repeat split.
  - destruct Hn as (nm & ss & l & Hin & <-).
    destruct (removeUnusedFragments_spread d nm ss l Hin)
      as (def & ss' & Hdef & Hw & Hsp).
    destruct def as [n' s' l'|nm' s' l'|k' l']; simpl in Hw; try discriminate;
      injection Hw as ->.
    + left. by eapply reach_operation.
    + assert (Hm : isFragmentName r (value nm')) by (by exists nm', ss', l').
      destruct (IH _ Hm) as [Hreach|(names & Hlen & Hall & Hchain)].
      * left. by eapply reach_fragment.
      * right. exists (value nm' :: names). simpl. repeat split.
        -- by rewrite Hlen.
        -- by constructor.
        -- by exists nm', ss', l'.
        -- done.
Qed.

Lemma fragmentSpreads_subset d m x :
  fragmentSpreads (removeUnusedFragments d) m x -> fragmentSpreads d m x.
Proof.
  intros (nm & ss & l & Hin & Hm & Hsp). exists nm, ss, l.
  split; [by apply removeUnusedFragments_subset|done].
Qed.

Lemma tc_fragmentSpreads_subset d m x :
  tc (fragmentSpreads (removeUnusedFragments d)) m x ->
  tc (fragmentSpreads d) m x.
Proof.
  induction 1 as [m x H|m y x H _ IH].
  - apply tc_once. by apply fragmentSpreads_subset.
  - eapply tc_l; [by apply fragmentSpreads_subset|done].
Qed.

Lemma ranked_acyclic rank d : respectsRank rank d = true -> acyclic d.
Proof.
  intros Hrank.
  assert (Hedge : forall m x, fragmentSpreads d m x -> rank m < rank x).
  { intros m x (nm & ss & l & Hin & <- & Hsp).
    unfold respectsRank in Hrank. rewrite forallb_forall in Hrank.
    specialize (Hrank _ Hin). simpl in Hrank.
    rewrite forallb_forall in Hrank. apply Nat.ltb_lt, Hrank.
    apply list_elem_of_In, elem_of_elements, traverse_spec. by right. }
  assert (Htc : forall m x, tc (fragmentSpreads d) m x -> rank m < rank x).
  { induction 1 as [m x H|m y x H _ IH].
    - by apply Hedge.
    - apply Hedge in H. lia. }
  intros n Hn. apply Htc in Hn. lia.
Qed.

(** C1, as amended.  When no fragment of the document spreads itself,
    directly or through other fragments, every fragment definition that
    [removeUnusedFragments] retains is transitively reachable from an
    operation definition of the pruned document. *)
Theorem removeUnusedFragments_retained_reachable (d : DocumentNode) :
  acyclic d ->
  forall nm ss l,
    In (FragmentDefinition nm ss l) (definitions (removeUnusedFragments d)) ->
    reachable (removeUnusedFragments d) (value nm).
Proof.
  intros Hacyclic nm ss l Hin.
  set (r := removeUnusedFragments d) in *.
  set (all := omap fragmentName (definitions r)).
  assert (Hn : isFragmentName r (value nm)) by (by exists nm, ss, l).
  destruct (retained_chain d (S (length all)) _ Hn)
    as [Hreach|(names & Hlen & Hall & Hchain)]; [done|].
  exfalso.
  assert (Hdup : ~ NoDup names).
  { intros Hnodup. apply NoDup_ListNoDup in Hnodup.
    apply (NoDup_incl_length (l' := all)) in Hnodup.
    - lia.
    - intros x Hx. apply isFragmentName_In.
      rewrite Forall_forall in Hall. apply Hall. by apply list_elem_of_In. }
  rewrite NoDup_ListNoDup in Hdup.
  apply not_NoDup in Hdup as (a & l1 & l2 & l3 & ->).
  - apply spreadChain_repeat in Hchain.
    by apply (Hacyclic a), tc_fragmentSpreads_subset.
  - intros x y. destruct (string_dec x y); [by left|by right].
Qed.

Lemma removeUnusedFragments_retained_reachable_witness :
  acyclic scenarioC
  /\ In (FragmentDefinition (mkName "A" None)
           (SelectionSet [Field (mkName "id" None) None None] None) None)
        (definitions (removeUnusedFragments scenarioC))
  /\ reachable (removeUnusedFragments scenarioC) "A".
Proof.
  assert (Hacyclic : acyclic scenarioC).
  { apply (ranked_acyclic (fun s => if String.eqb s "B" then 0 else 1)).
    vm_compute. reflexivity. }
  assert (Hin : In (FragmentDefinition (mkName "A" None)
           (SelectionSet [Field (mkName "id" None) None None] None) None)
        (definitions (removeUnusedFragments scenarioC))).
  { vm_compute. auto. }
  split; [exact Hacyclic|]. split; [exact Hin|].
  exact (removeUnusedFragments_retained_reachable scenarioC Hacyclic _ _ _ Hin).
Defined.

Lemma removeUnusedFragments_keeps_reachable_witness :
  let def := FragmentDefinition (mkName "A" None)
               (SelectionSet [Field (mkName "id" None) None None] None) None in
  In def (definitions scenarioC)
  /\ (isOperation def = true
      \/ exists n, fragmentName def = Some n /\ reachable scenarioC n)
  /\ In def (definitions (removeUnusedFragments scenarioC)).
Proof.
  intros def.
  assert (Hin : In def (definitions scenarioC)) by (simpl; auto).
  assert (Hreach : isOperation def = true
      \/ exists n, fragmentName def = Some n /\ reachable scenarioC n).
  { right. exists "A". split; [reflexivity|].
    eapply reach_operation; [simpl; left; reflexivity|].
    apply (spreads_here _ _ (mkName "A" None) None). simpl. auto. }
  split; [exact Hin|]. split; [exact Hreach|].
  exact (removeUnusedFragments_keeps_reachable scenarioC def Hin Hreach).
Defined.

(** The claim without the acyclicity condition fails: the only fragment
    of [selfSpreading] is retained although the document has no operation
    at all. *)
Lemma retained_fragment_unreachable :
  ~ (forall d nm ss l,
       In (FragmentDefinition nm ss l) (definitions (removeUnusedFragments d)) ->
       reachable (removeUnusedFragments d) (value nm)).
Proof.
  intros Hclaim.
  specialize (Hclaim selfSpreading (mkName "A" None)
                (SelectionSet [FragmentSpread (mkName "A" None) None] None) None).
  assert (Hfix : removeUnusedFragments selfSpreading = selfSpreading)
    by (vm_compute; reflexivity).
  rewrite Hfix in Hclaim.
  apply (no_operation_unreachable selfSpreading) with (x := "A").
  - intros def [<-|[]]. reflexivity.
  - apply Hclaim. simpl. auto.
Qed.

(** * Properties of source-location stripping *)

Lemma removeSourceLocations_array elems :
  removeSourceLocations (JArray elems)
  = bindResult (mapResult visitValue elems) (fun elems' => Ok (JArray elems')).
Proof. reflexivity. Qed.

Lemma removeSourceLocations_object props :
  removeSourceLocations (JObject props)
  = bindResult (mapProps (locDeleted props) visitValue props)
               (fun props' => Ok (JObject props')).
Proof. reflexivity. Qed.

(** The fused loop is the loop over the properties left by [delete]. *)
Lemma mapProps_deleteProp f props :
  mapProps (fun k => String.eqb k "loc") f props
  = mapProps (fun _ => false) f (deleteProp "loc" props).
Proof.
  induction props as [|[k v] props IH]; simpl; [done|].
  destruct (String.eqb k "loc"); simpl; [done|].
  destruct (f v); [|done]. by rewrite IH.
Qed.

Lemma mapResult_all {A B} (f : A -> Result B) (good : B -> bool) l :
  Forall (fun x => exists y, f x = Ok y /\ good y = true) l ->
  exists l', mapResult f l = Ok l' /\ forallb good l' = true.
Proof.
  induction 1 as [|x l (y & Hy & Hg) _ (l' & Hl' & Hgl)]; simpl.
  - by exists [].
  - rewrite Hy, Hl'. exists (y :: l'). simpl. by rewrite Hg, Hgl.
Qed.

(** A falsy [loc] does not occur in a parsed tree, so a walk that
    deletes nothing met no [loc] key at all. *)
Lemma getProp_loc_truthy props :
  (forall kv, In kv props -> String.eqb (fst kv) "loc" = true ->
              truthy (snd kv) = true) ->
  (exists kv, In kv props /\ String.eqb (fst kv) "loc" = true) ->
  truthy (getProp "loc" props) = true.
Proof.
  induction props as [|[k v] props IH]; intros Hall (kv & Hin & Hloc).
  - destruct Hin.
  - simpl. destruct (String.eqb k "loc") eqn:Hk.
    + apply (Hall (k, v)); simpl; auto.
    + apply IH.
      * intros kv' Hin'. apply Hall. by right.
      * exists kv. split; [|done]. destruct Hin as [<-|Hin]; [|done].
        simpl in Hloc. congruence.
Qed.

Lemma astShaped_object props :
  astShaped (JObject props) = true ->
  forall kv, In kv props ->
    (String.eqb (fst kv) "loc" = true -> truthy (snd kv) = true)
    /\ astShaped (snd kv) = true.
Proof.
  simpl. rewrite forallb_forall. intros Hall kv Hin.
  apply Hall in Hin. apply andb_true_iff in Hin as [Hloc Hshape].
  split; [|done]. intros Hk. rewrite Hk in Hloc. done.
Qed.

Lemma mapProps_all deleted f props :
  (forall kv, In kv props -> String.eqb (fst kv) "loc" = true ->
              deleted (fst kv) = true) ->
  Forall (fun kv => exists v', f (snd kv) = Ok v' /\ locFree v' = true) props ->
  exists props', mapProps deleted f props = Ok props'
                 /\ locFree (JObject props') = true.
Proof.
  intros Hdel Hall. induction Hall as [|[k v] props (v' & Hv & Hfree) _ IH].
  - by exists [].
  - destruct IH as (props' & Hprops & Hfree').
    { intros kv Hin. apply Hdel. by right. }
    simpl. destruct (deleted k) eqn:Hk.
    + by exists props'.
    + simpl in Hv. rewrite Hv, Hprops. exists ((k, v') :: props').
      split; [done|]. simpl in *. rewrite Hfree, Hfree'.
      destruct (String.eqb k "loc") eqn:Hloc; [|done].
      specialize (Hdel (k, v) (or_introl eq_refl) Hloc). simpl in Hdel.
      congruence.
Qed.

(** The walk over a parsed tree: both the function and the per-value
    callback return, and leave no [loc] behind. *)
Lemma removeSourceLocations_walk v :
  astShaped v = true ->
  (isNullish v = false ->
   exists v', removeSourceLocations v = Ok v' /\ locFree v' = true)
  /\ (exists v', visitValue v = Ok v' /\ locFree v' = true).
Proof.
  induction v as [| |b|n|s|elems IH|props IH] using JSValue_nested_ind;
    intros Hshape; try (split; [try discriminate|]; eauto; fail).
  - assert (Helems : Forall (fun x => isNullish x = false /\ astShaped x = true) elems).
    { simpl in Hshape. rewrite forallb_forall in Hshape.
      apply Forall_forall. intros x Hx. apply list_elem_of_In, Hshape in Hx.
      apply andb_true_iff in Hx as [Hn Hs]. by apply negb_true_iff in Hn. }
    split; [intros _|].
    + rewrite removeSourceLocations_array.
      destruct (mapResult_all visitValue locFree elems) as (l' & Hl' & Hfree).
      { apply Forall_forall. intros x Hx.
        rewrite Forall_forall in IH, Helems.
        destruct (Helems x Hx) as [_ Hs]. by apply (IH x Hx Hs). }
      rewrite Hl'. by exists (JArray l').
    + simpl.
      destruct (mapResult_all removeSourceLocations locFree elems)
        as (l' & Hl' & Hfree).
      { apply Forall_forall. intros x Hx.
        rewrite Forall_forall in IH, Helems.
        destruct (Helems x Hx) as [Hn Hs]. by apply (IH x Hx Hs). }
      rewrite Hl'. by exists (JArray l').
  - assert (Hobj : exists v', removeSourceLocations (JObject props) = Ok v'
                              /\ locFree v' = true).
    { rewrite removeSourceLocations_object.
      destruct (mapProps_all (locDeleted props) visitValue props)
        as (props' & Hprops & Hfree).
      - intros kv Hin Hloc. unfold locDeleted.
        rewrite getProp_loc_truthy; [done| |by exists kv].
        intros kv' Hin'. by apply (astShaped_object props Hshape kv' Hin').
      - apply Forall_forall. intros kv Hin.
        rewrite Forall_forall in IH. apply (IH kv Hin).
        by apply (astShaped_object props Hshape kv), list_elem_of_In.
      - rewrite Hprops. by exists (JObject props'). }
    split; [by intros _|]. exact Hobj.
Qed.

(** C6. On every tree shaped as the parser builds it (sequences hold no
    [null] or [undefined], a [loc] property holds a location object),
    however its nodes nest, [removeSourceLocations] returns without an
    exception and no object at any depth of the result has a [loc]
    property; primitive and [null] property values are passed over. *)
Theorem removeSourceLocations_strips_all (document : JSValue) :
  isNullish document = false ->
  astShaped document = true ->
  exists document',
    removeSourceLocations document = Ok document'
    /\ locFree document' = true.
Proof.
  intros Hroot Hshape.
  by apply (removeSourceLocations_walk document Hshape).
Qed.

Lemma removeSourceLocations_strips_all_witness :
  isNullish sampleTree = false
  /\ astShaped sampleTree = true
  /\ exists document',
       removeSourceLocations sampleTree = Ok document'
       /\ locFree document' = true.
Proof.
  split; [reflexivity|]. split; [reflexivity|].
  exact (removeSourceLocations_strips_all sampleTree eq_refl eq_refl).
Defined.

(** * Typed documents under the untyped walk *)

Section Bridge.
Import Encode.

Lemma getProp_app_loc props l :
  noLocKey props = true ->
  getProp "loc" (props ++ locToJS l) = locValue l.
Proof.
  intros Hno. induction props as [|[k v] props IH]; simpl in *.
  - by destruct l.
  - apply andb_true_iff in Hno as [Hk Hno]. apply negb_true_iff in Hk.
    rewrite Hk. by apply IH.
Qed.

Lemma getProp_app_other key props l :
  String.eqb "loc" key = false ->
  getProp key (props ++ locToJS l) = getProp key props.
Proof.
  intros Hkey. induction props as [|[k v] props IH]; cbn [app getProp].
  - destruct l; cbn [locToJS getProp]; [|done]. by rewrite Hkey.
  - by rewrite IH.
Qed.

Lemma withProp_app_other {A} key (f : JSValue -> option A) props l :
  String.eqb "loc" key = false ->
  withProp key f (props ++ locToJS l) = withProp key f props.
Proof.
  intros Hkey. induction props as [|[k v] props IH]; cbn [app withProp].
  - destruct l; cbn [locToJS withProp]; [|done]. by rewrite Hkey.
  - by rewrite IH.
Qed.

Lemma locFromJS_app props l :
  noLocKey props = true -> locFromJS (props ++ locToJS l) = Some l.
Proof.
  intros Hno. unfold locFromJS. rewrite getProp_app_loc by done.
  by destruct l as [[a b]|].
Qed.

Lemma removeSourceLocations_node props l :
  noLocKey props = true ->
  removeSourceLocations (node props l)
  = bindResult (mapProps (fun _ => false) visitValue props)
               (fun props' => Ok (node props' None)).
Proof.
  intros Hno. unfold node. rewrite removeSourceLocations_object.
  unfold locDeleted. rewrite getProp_app_loc by done.
  assert (Hmap :
    mapProps (fun k => if truthy (locValue l) then String.eqb k "loc" else false)
      visitValue (props ++ locToJS l)
    = mapProps (fun _ => false) visitValue props).
  { destruct l as [l|]; simpl.
    - induction props as [|[k v] props IH]; simpl in *; [done|].
      apply andb_true_iff in Hno as [Hk Hno]. apply negb_true_iff in Hk.
      rewrite Hk. destruct (visitValue v); [|done]. by rewrite IH.
    - by rewrite app_nil_r. }
  rewrite Hmap. destruct (mapProps _ _ props); simpl; [|done].
  by rewrite app_nil_r.
Qed.

Lemma mapResult_map {A B C} (f : B -> Result C) (g : A -> B) (h : A -> C) l :
  Forall (fun x => f (g x) = Ok (h x)) l ->
  mapResult f (List.map g l) = Ok (List.map h l).
Proof.
  induction 1 as [|x l Hx _ IH]; simpl; [done|]. by rewrite Hx, IH.
Qed.

Lemma mapOption_map {A B} (f : B -> option A) (g : A -> B) l :
  Forall (fun x => f (g x) = Some x) l ->
  mapOption f (List.map g l) = Some l.
Proof.
  induction 1 as [|x l Hx _ IH]; simpl; [done|]. by rewrite Hx, IH.
Qed.

Ltac walk_node :=
  rewrite removeSourceLocations_node by reflexivity;
  cbn [mapProps bindResult].

Lemma removeSourceLocations_name n :
  removeSourceLocations (nameToJS n) = Ok (nameToJS (clearName n)).
Proof. unfold nameToJS. by walk_node. Qed.

Lemma visitValue_name n :
  visitValue (nameToJS n) = Ok (nameToJS (clearName n)).
Proof. apply removeSourceLocations_name. Qed.

Lemma visitValue_selectionSet ss :
  visitValue (selectionSetToJS ss) = removeSourceLocations (selectionSetToJS ss).
Proof. by destruct ss. Qed.

Lemma removeSourceLocations_selectionSet ss :
  removeSourceLocations (selectionSetToJS ss)
  = Ok (selectionSetToJS (clearSelectionSet ss)).
Proof.
  induction ss using selectionSet_nested_ind
    with (P := fun s => removeSourceLocations (selectionToJS s)
                        = Ok (selectionToJS (clearSelection s)));
    cbn [selectionToJS selectionSetToJS clearSelection clearSelectionSet option_map].
  - walk_node. by rewrite visitValue_name.
  - walk_node. by rewrite visitValue_name, visitValue_selectionSet, IHss.
  - walk_node. by rewrite visitValue_name.
  - walk_node. by rewrite visitValue_selectionSet, IHss.
  - walk_node. cbn [visitValue].
    by rewrite (mapResult_map _ _ (fun s => selectionToJS (clearSelection s)))
      , <- List.map_map.
Qed.

Lemma removeSourceLocations_definition def :
  removeSourceLocations (definitionToJS def)
  = Ok (definitionToJS (clearDefinition def)).
Proof.
  destruct def as [[n|] ss l|n ss l|k l];
    cbn [definitionToJS clearDefinition option_map]; walk_node;
    rewrite ?visitValue_name, ?visitValue_selectionSet,
      ?removeSourceLocations_selectionSet; reflexivity.
Qed.

Lemma removeSourceLocations_toJS d :
  removeSourceLocations (toJS d) = Ok (toJS (clearLocations d)).
Proof.
  unfold toJS. walk_node. cbn [visitValue].
  rewrite (mapResult_map _ _ (fun def => definitionToJS (clearDefinition def))).
  - cbn [bindResult clearLocations definitions doc_loc].
    by rewrite <- List.map_map.
  - apply Forall_forall. intros def _. apply removeSourceLocations_definition.
Qed.

Ltac read_node :=
  unfold node; cbn [selectionFromJS selectionSetFromJS];
  rewrite ?getProp_app_other, ?withProp_app_other, ?locFromJS_app by reflexivity;
  cbn -[selectionSetFromJS selectionFromJS nameFromJS
        selectionSetToJS selectionToJS nameToJS].

Lemma nameFromJS_nameToJS n : nameFromJS (nameToJS n) = Some n.
Proof. unfold nameToJS, nameFromJS. read_node. by destruct n. Qed.

Lemma selectionSetToJS_not_nullish ss : isNullish (selectionSetToJS ss) = false.
Proof. by destruct ss. Qed.

Lemma selectionSetFromJS_selectionSetToJS ss :
  selectionSetFromJS (selectionSetToJS ss) = Some ss.
Proof.
  induction ss using selectionSet_nested_ind
    with (P := fun s => selectionFromJS (selectionToJS s) = Some s);
    cbn [selectionToJS selectionSetToJS selectionFromJS selectionSetFromJS].
  - read_node. by rewrite nameFromJS_nameToJS.
  - read_node.
    by rewrite nameFromJS_nameToJS, selectionSetToJS_not_nullish, IHss.
  - read_node. by rewrite nameFromJS_nameToJS.
  - read_node. by rewrite IHss.
  - read_node. by rewrite mapOption_map.
Qed.

Lemma otherKindFromName_otherKindName k :
  otherKindFromName (otherKindName k) = Some k.
Proof. by destruct k. Qed.

Lemma definitionFromJS_definitionToJS def :
  definitionFromJS (definitionToJS def) = Some def.
Proof.
  destruct def as [[n|] ss l|n ss l|k l];
    unfold definitionToJS, definitionFromJS; read_node;
    rewrite ?nameFromJS_nameToJS, ?selectionSetFromJS_selectionSetToJS;
    try reflexivity.
  destruct k; reflexivity.
Qed.

Lemma astShaped_node props l :
  astShaped (node props l)
  = forallb (fun kv => (negb (String.eqb (fst kv) "loc") || truthy (snd kv))
                       && astShaped (snd kv)) props.
Proof.
  unfold node. cbn [astShaped]. rewrite forallb_app.
  destruct l; cbn; apply andb_true_r.
Qed.

Lemma astShaped_name n : astShaped (nameToJS n) = true.
Proof. unfold nameToJS. by rewrite astShaped_node. Qed.

Lemma astShaped_selectionSet ss : astShaped (selectionSetToJS ss) = true.
Proof.
  induction ss using selectionSet_nested_ind
    with (P := fun s => astShaped (selectionToJS s) = true);
    cbn [selectionToJS selectionSetToJS]; rewrite astShaped_node;
    cbn -[selectionSetToJS selectionToJS nameToJS];
    rewrite ?IHss, ?astShaped_name; try reflexivity.
  rewrite andb_true_r, forallb_forall. intros v Hv.
  apply in_map_iff in Hv as (s & <- & Hs).
  rewrite Forall_forall in H. rewrite (H s) by (by apply list_elem_of_In).
  by destruct s.
Qed.

(** Every typed document is a tree of the shape [astShaped] asks for. *)
Lemma astShaped_toJS d : astShaped (toJS d) = true.
Proof.
  unfold toJS. rewrite astShaped_node.
  cbn -[definitionToJS]. rewrite andb_true_r, forallb_forall. intros v Hv.
  apply in_map_iff in Hv as (def & <- & _).
  destruct def as [[n|] ss l|n ss l|k l]; cbn [definitionToJS];
    rewrite ?astShaped_node; cbn -[selectionSetToJS nameToJS];
    rewrite ?astShaped_selectionSet, ?astShaped_name; reflexivity.
Qed.

(** The encoding loses nothing. *)
Lemma fromJS_toJS d : fromJS (toJS d) = Some d.
Proof.
  unfold toJS, fromJS. read_node. rewrite mapOption_map.
  - by destruct d.
  - apply Forall_forall. intros def _. apply definitionFromJS_definitionToJS.
Qed.

(** On a typed document the walk never throws, and it clears every
    location. *)
Lemma removeSourceLocationsDoc_clears d :
  removeSourceLocationsDoc d = Ok (clearLocations d).
Proof.
  unfold removeSourceLocationsDoc.
  by rewrite removeSourceLocations_toJS, fromJS_toJS.
Qed.

End Bridge.

(** * Properties of the schema locator *)

Section SchemaLocator.
Context `{Externals}.

Lemma statIsFile_run loader fileName w :
  statIsFile loader fileName w
  = Some (Ok (isFileAt loader fileName), w ++ [EvStat fileName]).
Proof. reflexivity. Qed.

Lemma findSchemaFileFrom_step fuel loader context schemaPath cur w :
  findSchemaFileFrom (S fuel) loader context schemaPath cur w
  = if isFileAt loader (join cur schemaPath)
    then Some (Ok (join cur schemaPath), w ++ [EvStat (join cur schemaPath)])
    else if String.eqb (dirname cur) cur
    then Some (Throw (Error (schemaNotFoundMessage schemaPath context)),
               w ++ [EvStat (join cur schemaPath)])
    else findSchemaFileFrom fuel loader context schemaPath (dirname cur)
           (w ++ [EvStat (join cur schemaPath)]).
Proof.
  cbn [findSchemaFileFrom]. unfold mbind, M_bind, bind.
  rewrite statIsFile_run.
  destruct (isFileAt loader (join cur schemaPath)); [reflexivity|].
  destruct (String.eqb (dirname cur) cur); reflexivity.
Qed.

(** The loop from level [i], when the root is [m] levels further up. *)
Lemma findSchemaFileFrom_levels loader context schemaPath n :
  dirname (ancestor n context) = ancestor n context ->
  (forall k, k < n -> dirname (ancestor k context) <> ancestor k context) ->
  forall m i fuel w,
    i + m = n -> m < fuel ->
    findSchemaFileFrom fuel loader context schemaPath (ancestor i context) w
    = Some (searchResult loader context schemaPath
              (candidates context schemaPath i m),
            w ++ List.map EvStat
                   (examined loader (candidates context schemaPath i m))).
Proof.
  intros Hroot Hmin. induction m as [|m IH]; intros i fuel w Him Hfuel;
    (destruct fuel as [|fuel]; [lia|]); rewrite findSchemaFileFrom_step;
    unfold candidates, searchResult; cbn [seq List.map List.find examined].
  - assert (i = n) as -> by lia.
    destruct (isFileAt loader _); [reflexivity|].
    rewrite Hroot, String.eqb_refl. reflexivity.
  - destruct (isFileAt loader _); [reflexivity|].
    destruct (String.eqb_spec (dirname (ancestor i context)) (ancestor i context))
      as [Heq|_]; [exfalso; apply (Hmin i); [lia|done]|].
    change (dirname (ancestor i context)) with (ancestor (S i) context).
    rewrite (IH (S i)) by lia.
    unfold candidates, searchResult. cbn [List.map].
    by rewrite <- app_assoc.
Qed.

Lemma find_first_level (f : nat -> string) (P : string -> bool) len :
  forall i p,
    List.find P (List.map f (seq i len)) = Some p ->
    exists k, i <= k < i + len /\ p = f k /\ P p = true
              /\ forall j, i <= j < k -> P (f j) = false.
Proof.
  induction len as [|len IH]; intros i p; cbn [seq List.map List.find];
    [discriminate|].
  destruct (P (f i)) eqn:Hi.
  - intros [= <-]. exists i. repeat split; [lia|lia|done|]. intros j Hj. lia.
  - intros Hfind. apply IH in Hfind as (k & Hk & -> & HP & Hbefore).
    exists k. repeat split; [lia|lia|done|]. intros j Hj.
    destruct (decide (j = i)) as [->|Hne]; [done|]. apply Hbefore. lia.
Qed.

(** C8. Let level [n] be the filesystem root above the starting
    directory (the first directory that is its own parent).
    [findSchemaFile] stats the schema file name in the starting
    directory and then in each successive parent, in that order, up to
    the first level where it is a regular file, and returns the path at
    that level; it fails if and only if no level up to the root has such
    a file, with a message that contains the schema file name and the
    starting directory. *)
Theorem findSchemaFile_searches_upwards (loader : LoaderContext)
    (context schemaPath : string) (n fuel : nat) (w : World) :
  dirname (ancestor n context) = ancestor n context ->
  (forall k, k < n -> dirname (ancestor k context) <> ancestor k context) ->
  n < fuel ->
  let paths := candidates context schemaPath 0 n in
  findSchemaFile fuel loader context schemaPath w
  = Some (match List.find (isFileAt loader) paths with
          | Some fileName => Ok fileName
          | None => Throw (Error (schemaNotFoundMessage schemaPath context))
          end,
          w ++ List.map EvStat (examined loader paths))
  /\ (List.find (isFileAt loader) paths = None
      <-> forall k, k <= n ->
            isFileAt loader (join (ancestor k context) schemaPath) = false)
  /\ (forall fileName, List.find (isFileAt loader) paths = Some fileName ->
        exists k, k <= n
          /\ fileName = join (ancestor k context) schemaPath
          /\ isFileAt loader fileName = true
          /\ forall j, j < k ->
               isFileAt loader (join (ancestor j context) schemaPath) = false)
  /\ schemaNotFoundMessage schemaPath context
     = String.append "Could not find schema file '"
         (String.append schemaPath
            (String.append " from any parent of '"
               (String.append context "'"))).
Proof.
  intros Hroot Hmin Hfuel paths. repeat split.
  - unfold findSchemaFile.
    change context with (ancestor 0 context) at 2.
    by rewrite (findSchemaFileFrom_levels loader context schemaPath n Hroot Hmin
                  n 0 fuel w).
  - intros Hnone k Hk.
    apply (find_none _ _ Hnone). apply in_map_iff. exists k.
    split; [done|]. apply in_seq. lia.
  - intros Hall. destruct (List.find _ paths) as [p|] eqn:Hfind; [|done].
    apply find_some in Hfind as [Hin Hfile].
    apply in_map_iff in Hin as (k & <- & Hk). apply in_seq in Hk.
    rewrite Hall in Hfile by lia. discriminate.
  - intros fileName Hfind. subst paths. unfold candidates in Hfind.
    apply find_first_level in Hfind as (k & Hk & -> & Hfile & Hbefore).
    exists k. repeat split; [lia|done|]. intros j Hj. apply Hbefore. lia.
Qed.

End SchemaLocator.

(** * Properties of the loader entry point *)

Section Pipeline.
Context `{Externals}.

Lemma forEachM_emit (errs : list JSError) w :
  forEachM (fun err => emit (EvEmitError err)) errs w
  = Some (Ok tt, w ++ List.map EvEmitError errs).
Proof.
  revert w. induction errs as [|e errs IH]; intros w; cbn [forEachM List.map].
  - by rewrite app_nil_r.
  - unfold mbind, M_bind, bind, emit. rewrite IH. by rewrite <- app_assoc.
Qed.

(** C9. When the options were loaded with a schema and the sources were
    resolved, the loader reports every error returned by the validator
    with its own [emitError] call, in order, and still hands the
    serialized document to the callback as a success: however many
    errors the validator returns, the outcome is never a failure. *)
Theorem validation_errors_are_not_fatal (fuel : nat) (this : LoaderContext)
    (source : string) (w w1 w2 : World) (options : Options)
    (s : GraphQLSchema) (document : DocumentNode) :
  async this = true ->
  loadOptions fuel this (w ++ [EvCacheable]) = Some (Ok options, w1) ->
  schema options = Some s ->
  loadSource fuel this source w1 = Some (Ok document, w2) ->
  let final := finalDocument options document in
  loader fuel this source w
  = Some (Done (Ok (payload options final)),
          w2 ++ List.map EvEmitError (graphqlValidate s final)).
Proof.
  intros Hasync Hoptions Hschema Hsource final.
  unfold loader, pipeline. rewrite Hasync. cbn [negb].
  unfold mbind, M_bind, bind. rewrite Hoptions, Hsource.
  unfold liftResult. rewrite removeSourceLocationsDoc_clears.
  rewrite Hschema. fold (finalDocument options document). fold final.
  rewrite forEachM_emit. reflexivity.
Qed.

(** C10. With [validate] set and no [schema] option, the loader calls
    back with the error "schema option must be passed if validate is
    true"; apart from [cacheable], the host has seen no call: no file
    was read, no path resolved or stat-ed, no dependency recorded. *)
Theorem validate_without_schema_fails (fuel : nat) (this : LoaderContext)
    (source : string) (w : World) :
  async this = true ->
  opt_validate (getOptions this) = Some true ->
  opt_schema (getOptions this) = None ->
  loader fuel this source w
  = Some (Done (Throw (Error "schema option must be passed if validate is true")),
          w ++ [EvCacheable]).
Proof.
  intros Hasync Hvalidate Hschema.
  unfold loader, pipeline. rewrite Hasync. cbn [negb].
  unfold mbind, M_bind, bind, loadOptions.
  rewrite Hvalidate, Hschema. reflexivity.
Qed.

End Pipeline.

(** * Properties of import resolution *)

Section Resolution.
Context `{Externals}.

(** Part of what the scan does is as described: a line is taken for a
    directive exactly when it starts with [#] and the text up to the
    first space after it is [import]. *)
Lemma scanLine_directive line :
  scanLine line <> NotImport
  <-> exists rest, line = String "#"%char rest
                   /\ hd_error (splitSpaces rest) = Some "import".
Proof.
  unfold scanLine. destruct line as [|c rest].
  - split; [done|]. intros (? & [=] & _).
  - destruct (Ascii.eqb_spec c "#"%char) as [->|Hc]; cbn [negb].
    + destruct (splitSpaces rest) as [|first more] eqn:Hsplit.
      * split; [done|]. intros (? & [= <-] & Hhd).
        rewrite Hsplit in Hhd. discriminate.
      * destruct (String.eqb_spec first "import") as [->|Hne]; cbn [negb].
        -- split; [intros _; by exists rest; rewrite Hsplit|]. intros _.
           destruct more as [|tok ?]; [done|].
           destruct (String.eqb tok ""); [done|].
           by destruct (matchQuoted tok).
        -- split; [done|]. intros (? & [= <-] & Hhd).
           rewrite Hsplit in Hhd. cbn in Hhd. congruence.
    + split; [done|]. intros (? & [= -> _] & _). done.
Qed.

Lemma append_empty s : String.append EmptyString s = s.
Proof. reflexivity. Qed.

Lemma append_cons c s t :
  String.append (String c s) t = String c (String.append s t).
Proof. reflexivity. Qed.

Lemma splitSpaces_cons c s :
  splitSpaces (String c s)
  = if Ascii.eqb c " "%char then EmptyString :: splitSpaces s
    else match splitSpaces s with
         | tok :: more => String c tok :: more
         | [] => [String c EmptyString]
         end.
Proof. reflexivity. Qed.

Lemma uptoLastQuote_cons c s :
  uptoLastQuote (String c s)
  = if isLineTerminator c then None
    else match uptoLastQuote s with
         | Some p => Some (String c p)
         | None => if isQuote c then Some EmptyString else None
         end.
Proof. reflexivity. Qed.

Lemma plainChar_spec c :
  plainChar c = true ->
  Ascii.eqb c " "%char = false /\ isQuote c = false
  /\ isLineTerminator c = false.
Proof.
  unfold plainChar. rewrite !andb_true_iff, !negb_true_iff. tauto.
Qed.

Lemma isQuote_spec q :
  isQuote q = true ->
  Ascii.eqb q " "%char = false /\ isLineTerminator q = false.
Proof.
  unfold isQuote. intros Hq.
  apply orb_true_iff in Hq as [Hq|Hq]; apply Ascii.eqb_eq in Hq; by subst.
Qed.

Lemma splitSpaces_quoted q path :
  isQuote q = true -> allChars plainChar path = true ->
  splitSpaces (String q (String.append path (String q EmptyString)))
  = [String q (String.append path (String q EmptyString))].
Proof.
  intros Hq Hpath. destruct (isQuote_spec q Hq) as [Hspace _].
  assert (Htail : splitSpaces (String.append path (String q EmptyString))
                  = [String.append path (String q EmptyString)]).
  { induction path as [|c path IH].
    - by rewrite append_empty, splitSpaces_cons, Hspace.
    - cbn [allChars] in Hpath.
      apply andb_true_iff in Hpath as [Hc Hpath].
      apply plainChar_spec in Hc as (Hc & _ & _).
      by rewrite append_cons, splitSpaces_cons, Hc, IH. }
  by rewrite splitSpaces_cons, Hspace, Htail.
Qed.

Lemma uptoLastQuote_plain q path :
  isQuote q = true -> allChars plainChar path = true ->
  uptoLastQuote (String.append path (String q EmptyString)) = Some path.
Proof.
  intros Hq Hpath. destruct (isQuote_spec q Hq) as [_ Hterm].
  induction path as [|c path IH].
  - by rewrite append_empty, uptoLastQuote_cons, Hterm, Hq.
  - cbn [allChars] in Hpath.
    apply andb_true_iff in Hpath as [Hc Hpath].
    apply plainChar_spec in Hc as (_ & _ & Hc).
    by rewrite append_cons, uptoLastQuote_cons, Hc, IH.
Qed.

(** The ordinary directive is read as intended: a non-empty path free of
    spaces and quotes, between two quotes of the same kind, is
    extracted. *)
Lemma scanLine_plain_path q path :
  isQuote q = true -> path <> EmptyString ->
  allChars plainChar path = true ->
  scanLine (importLine q path) = Import path.
Proof.
  intros Hq Hne Hpath. unfold importLine.
  pose proof (splitSpaces_quoted q path Hq Hpath) as Hsplit.
  remember (String q (String.append path (String q EmptyString))) as tok
    eqn:Htok.
  assert (Hscan : scanLine (String.append "#import " tok)
                  = if String.eqb tok EmptyString then MalformedImport
                    else match matchQuoted tok with
                         | Some filePath => Import filePath
                         | None => MalformedImport
                         end).
  { rewrite !append_cons, append_empty.
    cbn [scanLine Ascii.eqb Bool.eqb negb].
    rewrite !splitSpaces_cons, Hsplit. reflexivity. }
  rewrite Hscan, Htok. clear Hscan Hsplit Htok tok.
  destruct path as [|c path]; [done|].
  cbn [allChars] in Hpath. apply andb_true_iff in Hpath as [Hc Hpath].
  apply plainChar_spec in Hc as (_ & _ & Hc).
  rewrite append_cons. cbn [matchQuoted String.eqb].
  by rewrite Hq, Hc, uptoLastQuote_plain.
Qed.

Lemma logs_pure P {A} (r : Result A) : logs P (liftResult r).
Proof. intros w r' w' [= <- <-]. exists []. by rewrite app_nil_r. Qed.

Lemma logs_emit (P : Event -> Prop) ev : P ev -> logs P (emit ev).
Proof. intros HP w r w' [= <- <-]. exists [ev]. split; [done|]. by constructor. Qed.

Lemma logs_bind P {A B} (m : M A) (k : A -> M B) :
  logs P m -> (forall a, logs P (k a)) -> logs P (m ≫= k).
Proof.
  intros Hm Hk w r w'. unfold mbind, M_bind, bind.
  destruct (m w) as [[[a|e] w1]|] eqn:Hrun; [| |done].
  - intros Hrun'. apply Hm in Hrun as (evs1 & -> & H1).
    apply Hk in Hrun' as (evs2 & -> & H2).
    exists (evs1 ++ evs2). split; [by rewrite app_assoc|].
    by apply Forall_app.
  - intros [= <- <-]. by apply Hm in Hrun.
Qed.

Lemma logs_attempt P {A} (m : M A) : logs P m -> logs P (attempt m).
Proof.
  intros Hm w r w'. unfold attempt.
  destruct (m w) as [[r1 w1]|] eqn:Hrun; [|done].
  intros [= <- <-]. by apply Hm in Hrun.
Qed.

Lemma logs_settleAll P {A B} (f : A -> M B) l :
  (forall x, logs P (f x)) -> logs P (settleAll f l).
Proof.
  intros Hf. induction l as [|x l IH]; cbn [settleAll].
  - apply (logs_pure P (Ok [])).
  - apply logs_bind; [by apply logs_attempt|]. intros r.
    apply logs_bind; [done|]. intros rs. apply (logs_pure P (Ok (r :: rs))).
Qed.

Lemma logs_promiseAll P {A B} (f : A -> M B) l :
  (forall x, logs P (f x)) -> logs P (promiseAll f l).
Proof.
  intros Hf. unfold promiseAll. apply logs_bind; [by apply logs_settleAll|].
  intros rs. apply logs_pure.
Qed.

Lemma logs_scanImports loader lines :
  logs (resolvesAgainst (context loader)) (scanImports loader lines).
Proof.
  induction lines as [|line lines IH]; cbn [scanImports].
  - apply (logs_pure _ (Ok [])).
  - destruct (scanLine line) as [| |filePath]; [done| |].
    + apply (logs_pure _ (Throw _)).
    + apply logs_bind; [by apply logs_emit|]. intros _.
      apply logs_bind; [done|]. intros rs.
      apply (logs_pure _ (Ok (filePath :: rs))).
Qed.

(** Whatever the nesting depth of the file a directive sits in, its path
    is resolved against [loader.context], the directory of the entry
    file. *)
Lemma loadSource_resolves_against_context fuel loader source :
  logs (resolvesAgainst (context loader)) (loadSource fuel loader source).
Proof.
  revert source. induction fuel as [|fuel IH]; intros source; cbn [loadSource].
  - intros w r w' [=].
  - apply logs_bind; [apply logs_pure|]. intros document.
    unfold extractImports.
    apply logs_bind; [apply logs_scanImports|]. intros imports.
    apply logs_bind.
    { apply logs_promiseAll. intros filePath. unfold resolved.
      apply logs_bind; [apply logs_pure|]. intros result.
      apply logs_bind; [by apply logs_emit|]. intros _.
      apply (logs_pure _ (Ok result)). }
    intros files.
    apply logs_bind.
    { apply logs_promiseAll. intros path. unfold readFile.
      apply logs_bind; [by apply logs_emit|]. intros _. apply logs_pure. }
    intros contents.
    apply logs_bind; [by apply logs_promiseAll|]. intros nodes.
    apply (logs_pure _ (Ok _)).
Qed.

End Resolution.

(** * Concrete runs *)

Section Runs.
Import Sample.

(** C2 (the code departs from it).  The line [#import './my file.graphql']
    starts with [#], its next token is [import], and the rest of the line
    is a properly single-quoted path; yet the scan splits the line at
    every space and matches the quotes inside the second piece only, so
    the directive is rejected as malformed and resolution fails.  In the
    other direction, a path closed by the wrong kind of quote is
    accepted. *)
Theorem quoted_path_with_space_rejected :
  scanLine "#import './my file.graphql'" = MalformedImport
  /\ @loadSource libraries 1 (host "/a" noOptions) "#import './my file.graphql'" []
     = Some (Throw (Error "#import statement must specify a quoted file path"), [])
  /\ scanLine (String.append "#import './c.graphql" (String dquote EmptyString))
     = Import "./c.graphql".
Proof. repeat split; vm_compute; reflexivity. Qed.

(** C3 (the code departs from it).  The entry file lives in [/a] and
    imports [./sub/b.graphql]; that file, in [/a/sub], imports its
    neighbour [./c.graphql].  The nested path is resolved against [/a],
    the loader's context, not against [/a/sub], the directory of the file
    that holds the directive: the loader asks for [/a/c.graphql], which
    does not exist, and fails. *)
Theorem nested_import_resolved_against_entry_directory :
  @loadSource libraries 3 (host "/a" noOptions) "#import './sub/b.graphql'" []
  = Some (Throw (Error "ENOENT: /a/c.graphql"),
          [EvResolve "/a" "./sub/b.graphql";
           EvAddDependency "/a/sub/b.graphql";
           EvReadFile "/a/sub/b.graphql";
           EvResolve "/a" "./c.graphql";
           EvAddDependency "/a/c.graphql";
           EvReadFile "/a/c.graphql"]).
Proof. vm_compute. reflexivity. Qed.

(** Two imported files define the same fragment: one copy is kept. *)
Example duplicate_fragment_kept_once :
  let dup := FragmentDefinition (mkName "Dup" None)
               (SelectionSet [Field (mkName "id" None) None None] None) None in
  let q := OperationDefinition (Some (mkName "Q" None))
             (SelectionSet [FragmentSpread (mkName "Dup" None) None] None) None in
  definitions (removeDuplicateFragments (mkDocument [q; dup; dup] None))
  = [q; dup].
Proof. vm_compute. reflexivity. Qed.

(** The unused fragment [B] goes in the first pass, and [C], which only
    [B] used, in the second. *)
Example unused_fragments_pruned :
  List.map fragmentName (definitions (removeUnusedFragments scenarioC))
  = [None; Some "A"].
Proof. vm_compute. reflexivity. Qed.

(** No schema file in the starting directory or above it. *)
Example schema_not_found :
  @findSchemaFile libraries 3 (host "/a/sub" noOptions) "/a/sub" "nothing.json" []
  = Some (Throw (Error "Could not find schema file 'nothing.json from any parent of '/a/sub'"),
          [EvStat "/a/sub/nothing.json"; EvStat "/a/nothing.json";
           EvStat "//nothing.json"]).
Proof. vm_compute. reflexivity. Qed.

Lemma findSchemaFile_searches_upwards_witness :
  @dirname libraries (@ancestor libraries 2 "/a/sub") = @ancestor libraries 2 "/a/sub"
  /\ (forall k, k < 2 ->
        @dirname libraries (@ancestor libraries k "/a/sub")
        <> @ancestor libraries k "/a/sub")
  /\ 2 < 3
  /\ @findSchemaFile libraries 3 (host "/a/sub" noOptions) "/a/sub" "schema.json" []
     = Some (Ok "/a/schema.json",
             [EvStat "/a/sub/schema.json"; EvStat "/a/schema.json"]).
Proof.
  assert (Hroot : @dirname libraries (@ancestor libraries 2 "/a/sub")
                  = @ancestor libraries 2 "/a/sub") by reflexivity.
  assert (Hmin : forall k, k < 2 ->
            @dirname libraries (@ancestor libraries k "/a/sub")
            <> @ancestor libraries k "/a/sub").
  { intros [|[|k]] Hk; [discriminate|discriminate|lia]. }
  assert (Hfuel : 2 < 3) by lia.
  split; [exact Hroot|]. split; [exact Hmin|]. split; [exact Hfuel|].
  exact (proj1 (@findSchemaFile_searches_upwards libraries
                  (host "/a/sub" noOptions) "/a/sub" "schema.json" 2 3 []
                  Hroot Hmin Hfuel)).
Defined.

Lemma validation_errors_are_not_fatal_witness :
  let this := host "/a/sub" validating in
  let options := @mkLoaded libraries (Some tt) OutString None in
  async this = true
  /\ @loadOptions libraries 5 this ([] ++ [EvCacheable])
     = Some (Ok options, optionsLoaded)
  /\ @schema libraries options = Some tt
  /\ @loadSource libraries 5 this "{ id }" optionsLoaded
     = Some (Ok parsedSample, optionsLoaded)
  /\ @loader libraries 5 this "{ id }" []
     = Some (Done (Ok "module.exports = { }"),
             optionsLoaded ++ [EvEmitError unknownFragment;
                               EvEmitError unknownType]).
Proof.
  intros this options.
  assert (Hasync : async this = true) by reflexivity.
  assert (Hoptions : @loadOptions libraries 5 this ([] ++ [EvCacheable])
                     = Some (Ok options, optionsLoaded)) by reflexivity.
  assert (Hschema : @schema libraries options = Some tt) by reflexivity.
  assert (Hsource : @loadSource libraries 5 this "{ id }" optionsLoaded
                    = Some (Ok parsedSample, optionsLoaded)) by reflexivity.
  split; [exact Hasync|]. split; [exact Hoptions|]. split; [exact Hschema|].
  split; [exact Hsource|].
  exact (@validation_errors_are_not_fatal libraries 5 this "{ id }" []
           optionsLoaded optionsLoaded options tt parsedSample
           Hasync Hoptions Hschema Hsource).
Defined.

Lemma validate_without_schema_fails_witness :
  let this := host "/a/sub" validateOnly in
  async this = true
  /\ opt_validate (getOptions this) = Some true
  /\ opt_schema (getOptions this) = None
  /\ @loader libraries 5 this "{ id }" []
     = Some (Done (Throw (Error "schema option must be passed if validate is true")),
             [EvCacheable]).
Proof.
  intros this.
  split; [reflexivity|]. split; [reflexivity|]. split; [reflexivity|].
  exact (@validate_without_schema_fails libraries 5 this "{ id }" []
           eq_refl eq_refl eq_refl).
Defined.

End Runs.

(** * Further properties of deduplication and pruning *)

Section MoreFragments.

Lemma filterDuplicates_twice used defs :
  filterDuplicates used (filterDuplicates used defs)
  = filterDuplicates used defs.
Proof.
  revert used. induction defs as [|def defs IH]; intros used; [done|].
  destruct def as [n ss l|nm ss l|k l]; cbn [filterDuplicates];
    rewrite ?IH; try done.
  destruct (decide (value nm ∈ used)) as [Hin|Hin].
  - rewrite bool_decide_eq_true_2 by done. apply IH.
  - rewrite bool_decide_eq_false_2 by done. cbn [filterDuplicates].
    rewrite bool_decide_eq_false_2 by done. by rewrite IH.
Qed.

(** X1. Deduplication is idempotent: a second run removes nothing. *)
Theorem removeDuplicateFragments_idempotent (document : DocumentNode) :
  removeDuplicateFragments (removeDuplicateFragments document)
  = removeDuplicateFragments document.
Proof.
  unfold removeDuplicateFragments, setDefinitions. cbn [definitions doc_loc].
  by rewrite filterDuplicates_twice.
Qed.

Lemma filterDuplicates_fresh used defs :
  NoDup (omap fragmentName (filterDuplicates used defs))
  /\ forall n, n ∈ omap fragmentName (filterDuplicates used defs) -> n ∉ used.
Proof.
  revert used. induction defs as [|def defs IH]; intros used.
  - split; [constructor|]. intros n Hn. by apply elem_of_nil in Hn.
  - destruct def as [n ss l|nm ss l|k l]; cbn [filterDuplicates omap list_omap fragmentName];
      try apply IH.
    destruct (decide (value nm ∈ used)) as [Hin|Hin].
    + rewrite bool_decide_eq_true_2 by done. apply IH.
    + rewrite bool_decide_eq_false_2 by done.
      cbn [omap list_omap fragmentName].
      destruct (IH ({[value nm]} ∪ used)) as [Hnodup Hfresh]. split.
      * constructor; [|done]. intros Hn. apply Hfresh in Hn. set_solver.
      * intros n Hn. apply elem_of_cons in Hn as [->|Hn]; [done|].
        apply Hfresh in Hn. set_solver.
Qed.

Lemma sweep_sublist d : definitions (sweep d) `sublist_of` definitions d.
Proof.
  unfold sweep. cbn [definitions setDefinitions].
  generalize (keepDefinition (findFragmentSpreads d ∅)). intros keep.
  induction (definitions d) as [|def defs IH]; cbn [List.filter]; [constructor|].
  destruct (keep def); by constructor.
Qed.

Lemma sweep_others d :
  List.filter (fun def => negb (isFragment def)) (definitions (sweep d))
  = List.filter (fun def => negb (isFragment def)) (definitions d).
Proof.
  unfold sweep. cbn [definitions setDefinitions].
  generalize (findFragmentSpreads d ∅). intros used.
  induction (definitions d) as [|def defs IH]; [done|].
  destruct def as [n ss l|nm ss l|k l]; cbn [List.filter keepDefinition isFragment negb];
    rewrite ?IH; try done.
  destruct (bool_decide _); cbn [List.filter isFragment negb]; apply IH.
Qed.

Lemma removeUnusedFragments_sublist d :
  definitions (removeUnusedFragments d) `sublist_of` definitions d.
Proof.
  apply (removeUnusedFragments_passes
    (fun d r => definitions r `sublist_of` definitions d)); [done|].
  intros d' r _ Hsub. etrans; [exact Hsub|apply sweep_sublist].
Qed.

(** X2. Pruning only takes fragment definitions away: what it returns is
    a subsequence of the input (order is kept), the definitions that are
    not fragments are all there, and the document's own attributes are
    untouched. *)
Theorem removeUnusedFragments_only_drops_fragments (d : DocumentNode) :
  definitions (removeUnusedFragments d) `sublist_of` definitions d
  /\ List.filter (fun def => negb (isFragment def))
       (definitions (removeUnusedFragments d))
     = List.filter (fun def => negb (isFragment def)) (definitions d)
  /\ doc_loc (removeUnusedFragments d) = doc_loc d.
Proof.
  split; [apply removeUnusedFragments_sublist|].
  apply (removeUnusedFragments_passes
    (fun d r =>
       List.filter (fun def => negb (isFragment def)) (definitions r)
       = List.filter (fun def => negb (isFragment def)) (definitions d)
       /\ doc_loc r = doc_loc d)).
  - intros d' _. done.
  - intros d' r _ (Hothers & Hloc). split.
    + by rewrite Hothers, sweep_others.
    + by rewrite Hloc.
Qed.

(** X3. Pruning returns the largest part of the document that supports
    itself: every fragment it retains is spread by a definition it
    retains, and any sub-list of the input's definitions with that
    property is retained whole. *)
Theorem removeUnusedFragments_largest_self_supporting (d : DocumentNode) :
  selfSupporting (definitions (removeUnusedFragments d))
  /\ forall defs, incl defs (definitions d) -> selfSupporting defs ->
       incl defs (definitions (removeUnusedFragments d)).
Proof.
  split.
  - intros nm ss l Hin. by apply (removeUnusedFragments_spread d nm ss l).
  - intros defs Hincl Hself. revert Hincl.
    apply (removeUnusedFragments_passes
      (fun d r => incl defs (definitions d) -> incl defs (definitions r)));
      [done|].
    intros d' r _ IH Hincl. apply IH. intros def Hdef.
    apply sweep_In. split; [by apply Hincl|].
    destruct def as [n ss l|nm ss l|k l]; cbn [keepDefinition]; try done.
    apply bool_decide_eq_true, findFragmentSpreads_spec.
    destruct (Hself nm ss l Hdef) as (def' & ss' & Hin' & Hw & Hsp).
    exists def', ss'. split; [by apply Hincl|done].
Qed.

End MoreFragments.

(** * Further properties of the stages together *)

Section StagesTogether.
Import Encode.

Lemma traverse_clearSelectionSet ss :
  forall used, traverse (clearSelectionSet ss) used = traverse ss used.
Proof.
  induction ss using selectionSet_nested_ind
    with (P := fun s => forall used,
                 selectionStep used (clearSelection s) = selectionStep used s);
    intros used; cbn [clearSelection clearSelectionSet option_map selectionStep];
    try done.
  rewrite !traverse_unfold. revert used.
  induction H as [|s sels Hs _ IH]; intros used; cbn [List.map fold_left];
    [done|].
  by rewrite Hs, IH.
Qed.

Lemma findFragmentSpreads_clearLocations d used :
  findFragmentSpreads (clearLocations d) used = findFragmentSpreads d used.
Proof.
  unfold findFragmentSpreads, clearLocations. cbn [definitions]. revert used.
  induction (definitions d) as [|def defs IH]; intros used;
    cbn [List.map fold_left]; [done|].
  rewrite IH. f_equal.
  destruct def; cbn [clearDefinition]; by rewrite ?traverse_clearSelectionSet.
Qed.

Lemma keepDefinition_clearDefinition used def :
  keepDefinition used (clearDefinition def) = keepDefinition used def.
Proof. by destruct def. Qed.

Lemma filter_map_commute {A B} (f : B -> bool) (g : A -> B) l :
  List.filter f (List.map g l) = List.map g (List.filter (fun x => f (g x)) l).
Proof.
  induction l as [|x l IH]; cbn [List.map List.filter]; [done|].
  destruct (f (g x)); cbn [List.map]; by rewrite IH.
Qed.

Lemma sweep_clearLocations d :
  sweep (clearLocations d) = clearLocations (sweep d).
Proof.
  unfold sweep, setDefinitions. rewrite findFragmentSpreads_clearLocations.
  unfold clearLocations. cbn [definitions doc_loc]. f_equal.
  rewrite filter_map_commute. f_equal. apply List.filter_ext.
  intros def. apply keepDefinition_clearDefinition.
Qed.

Lemma removeUnusedFragments_clearLocations d :
  removeUnusedFragments (clearLocations d)
  = clearLocations (removeUnusedFragments d).
Proof.
  remember (length (definitions d)) as k eqn:Hk. revert d Hk.
  induction k as [k IH] using lt_wf_ind. intros d ->.
  rewrite (removeUnusedFragments_step d),
    (removeUnusedFragments_step (clearLocations d)), sweep_clearLocations.
  assert (Hlen : forall x, length (definitions (clearLocations x))
                           = length (definitions x)).
  { intros x. unfold clearLocations. cbn [definitions]. apply length_map. }
  rewrite !Hlen.
  destruct (Nat.eqb_spec (length (definitions d))
                         (length (definitions (sweep d)))) as [Heq|Hne]; [done|].
  eapply IH; [|reflexivity].
  pose proof (filter_length_le
    (keepDefinition (findFragmentSpreads d ∅)) (definitions d)).
  unfold sweep in *. cbn [definitions setDefinitions] in *. lia.
Qed.

Lemma filterDuplicates_clear used defs :
  filterDuplicates used (List.map clearDefinition defs)
  = List.map clearDefinition (filterDuplicates used defs).
Proof.
  revert used. induction defs as [|def defs IH]; intros used; [done|].
  destruct def as [n ss l|nm ss l|k l];
    cbn [List.map clearDefinition filterDuplicates clearName value];
    rewrite ?IH; try done.
  destruct (bool_decide _); cbn [List.map clearDefinition]; by rewrite ?IH.
Qed.

(** X4. Location stripping commutes with the two fragment stages: to
    strip and then deduplicate or prune gives the document that
    deduplicating or pruning first and stripping afterwards gives. *)
Theorem stripping_commutes_with_fragment_stages (d : DocumentNode) :
  bindResult (removeSourceLocationsDoc d)
    (fun d' => Ok (removeUnusedFragments d'))
  = removeSourceLocationsDoc (removeUnusedFragments d)
  /\ bindResult (removeSourceLocationsDoc d)
       (fun d' => Ok (removeDuplicateFragments d'))
     = removeSourceLocationsDoc (removeDuplicateFragments d).
Proof.
  rewrite !removeSourceLocationsDoc_clears. cbn [bindResult]. split; f_equal.
  - apply removeUnusedFragments_clearLocations.
  - unfold removeDuplicateFragments, clearLocations, setDefinitions.
    cbn [definitions doc_loc]. f_equal. apply filterDuplicates_clear.
Qed.

End StagesTogether.

Section FinalDocument.
Context `{Externals}.
Import Encode.

Lemma fragmentName_clearDefinition defs :
  omap fragmentName (List.map clearDefinition defs) = omap fragmentName defs.
Proof.
  induction defs as [|def defs IH]; [done|].
  destruct def; cbn [List.map omap list_omap clearDefinition fragmentName clearName value];
    by rewrite ?IH.
Qed.

Lemma sublist_fragmentNames (l1 l2 : list DefinitionNode) :
  l1 `sublist_of` l2 ->
  omap fragmentName l1 `sublist_of` omap fragmentName l2.
Proof.
  induction 1 as [|def l1 l2 _ IH|def l1 l2 _ IH];
    cbn [omap list_omap]; [constructor| |].
  - destruct (fragmentName def); [by constructor|done].
  - destruct (fragmentName def); [by constructor|done].
Qed.

Lemma locFree_clearLocations d : locFree (toJS (clearLocations d)) = true.
Proof.
  destruct (removeSourceLocations_walk (toJS d) (astShaped_toJS d))
    as [Hwalk _].
  destruct Hwalk as (v' & Hrun & Hfree); [done|].
  rewrite removeSourceLocations_toJS in Hrun. by injection Hrun as <-.
Qed.

(** X5. Whatever the options, the document handed to the validator and
    to the serializer has no two fragment definitions of the same
    name. *)
Theorem final_document_names_unique (options : Options)
    (document : DocumentNode) :
  NoDup (omap fragmentName (definitions (finalDocument options document))).
Proof.
  assert (Hcleared : NoDup (omap fragmentName
            (definitions (clearLocations (removeDuplicateFragments document))))).
  { unfold clearLocations, removeDuplicateFragments.
    cbn [definitions setDefinitions]. rewrite fragmentName_clearDefinition.
    apply filterDuplicates_fresh. }
  unfold finalDocument. destruct (truthyFlag (removeUnused options)); [|done].
  eapply sublist_NoDup; [exact Hcleared|].
  apply sublist_fragmentNames.
  apply (removeUnusedFragments_sublist
           (clearLocations (removeDuplicateFragments document))).
Qed.

(** X6. Whatever the options, no node of the document handed to the
    validator and to the serializer carries a location. *)
Theorem final_document_has_no_locations (options : Options)
    (document : DocumentNode) :
  locFree (toJS (finalDocument options document)) = true.
Proof.
  unfold finalDocument. destruct (truthyFlag (removeUnused options)).
  - rewrite removeUnusedFragments_clearLocations. apply locFree_clearLocations.
  - apply locFree_clearLocations.
Qed.

End FinalDocument.

(** * Further properties of source-location stripping *)

Section MoreStripping.

Lemma mapResult_again {A} (f : A -> Result A) l :
  Forall (fun x => forall y, f x = Ok y -> f y = Ok y) l ->
  forall l', mapResult f l = Ok l' -> mapResult f l' = Ok l'.
Proof.
  induction 1 as [|x l Hx _ IH]; intros l'; cbn [mapResult].
  - by intros [= <-].
  - destruct (f x) as [y|] eqn:Hy; [|done].
    destruct (mapResult f l) as [ys|] eqn:Hys; [|done].
    intros [= <-]. cbn [mapResult]. by rewrite (Hx y eq_refl), (IH ys eq_refl).
Qed.

Lemma mapProps_again deleted (f : JSValue -> Result JSValue) props :
  Forall (fun kv => forall y, f (snd kv) = Ok y -> f y = Ok y) props ->
  forall props', mapProps deleted f props = Ok props' ->
                 mapProps (fun _ => false) f props' = Ok props'.
Proof.
  induction 1 as [|[k v] props Hv _ IH]; intros props'; cbn [mapProps].
  - by intros [= <-].
  - destruct (deleted k); [apply IH|].
    cbn [snd] in Hv. destruct (f v) as [y|] eqn:Hy; [|done].
    destruct (mapProps deleted f props) as [ps|] eqn:Hps; [|done].
    intros [= <-]. cbn [mapProps]. by rewrite (Hv y eq_refl), (IH ps eq_refl).
Qed.

(** After the deletion nothing is called [loc]. *)
Lemma mapProps_deleted_loc f props props' :
  mapProps (fun k => String.eqb k "loc") f props = Ok props' ->
  getProp "loc" props' = JUndefined.
Proof.
  revert props'. induction props as [|[k v] props IH]; intros props';
    cbn [mapProps].
  - by intros [= <-].
  - destruct (String.eqb k "loc") eqn:Hk; [apply IH|].
    destruct (f v) as [y|]; [|done].
    destruct (mapProps _ f props) as [ps|] eqn:Hps; [|done].
    intros [= <-]. cbn [getProp]. rewrite Hk. by apply IH.
Qed.

(** Without a deletion, a property of the result is the visited
    property of the input. *)
Lemma mapProps_getProp f key props props' :
  f JUndefined = Ok JUndefined ->
  mapProps (fun _ => false) f props = Ok props' ->
  f (getProp key props) = Ok (getProp key props').
Proof.
  intros Hundef. revert props'.
  induction props as [|[k v] props IH]; intros props'; cbn [mapProps].
  - by intros [= <-].
  - destruct (f v) as [y|] eqn:Hy; [|done].
    destruct (mapProps _ f props) as [ps|] eqn:Hps; [|done].
    intros [= <-]. cbn [getProp]. destruct (String.eqb k key); [done|].
    by apply IH.
Qed.

Lemma visitValue_falsy v : truthy v = false -> visitValue v = Ok v.
Proof. by destruct v. Qed.

Lemma removeSourceLocations_again v :
  (forall v', removeSourceLocations v = Ok v' ->
              removeSourceLocations v' = Ok v')
  /\ (forall v', visitValue v = Ok v' -> visitValue v' = Ok v').
Proof.
  induction v as [| |b|n|s|elems IH|props IH] using JSValue_nested_ind;
    try (split; intros v'; cbn; by intros [= <-]);
    try (split; intros v'; cbn; [done|by intros [= <-]]).
  - split; intros v'.
    + rewrite removeSourceLocations_array.
      destruct (mapResult visitValue elems) as [elems'|] eqn:Hrun; [|done].
      intros [= <-]. rewrite removeSourceLocations_array.
      rewrite (mapResult_again visitValue elems) with (l' := elems'); try done.
      eapply Forall_impl; [exact IH|]. intros x Hx. apply Hx.
    + cbn [visitValue].
      destruct (mapResult removeSourceLocations elems) as [elems'|] eqn:Hrun;
        [|done].
      intros [= <-]. cbn [visitValue bindResult].
      rewrite (mapResult_again removeSourceLocations elems) with (l' := elems');
        try done.
      eapply Forall_impl; [exact IH|]. intros x Hx. apply Hx.
  - assert (Hobj : forall v', removeSourceLocations (JObject props) = Ok v' ->
                              removeSourceLocations v' = Ok v').
    { intros v'. rewrite removeSourceLocations_object.
      destruct (mapProps (locDeleted props) visitValue props)
        as [props'|] eqn:Hrun; [|done].
      intros [= <-]. rewrite removeSourceLocations_object.
      assert (Hvisit : Forall (fun kv => forall y, visitValue (snd kv) = Ok y ->
                                 visitValue y = Ok y) props).
      { eapply Forall_impl; [exact IH|]. intros kv Hkv. apply Hkv. }
      assert (Hnone : locDeleted props' = fun _ => false).
      { unfold locDeleted in *.
        destruct (truthy (getProp "loc" props)) eqn:Hloc.
        - by rewrite (mapProps_deleted_loc visitValue props props' Hrun).
        - pose proof (mapProps_getProp visitValue "loc" props props'
                        eq_refl Hrun) as Hget.
          rewrite visitValue_falsy in Hget by done.
          injection Hget as <-. by rewrite Hloc. }
      rewrite Hnone.
      by rewrite (mapProps_again _ visitValue props Hvisit props' Hrun). }
    split; [exact Hobj|]. intros v'. cbn [visitValue]. intros Hrun.
    pose proof Hrun as Hrun'. rewrite removeSourceLocations_object in Hrun'.
    destruct (mapProps _ _ props) as [props'|]; [|done].
    injection Hrun' as <-. cbn [visitValue]. by apply Hobj.
Qed.

(** X7. Location stripping is idempotent on every object tree: when a
    walk returns, a second walk over its result returns the same tree. *)
Theorem removeSourceLocations_idempotent (document document' : JSValue) :
  removeSourceLocations document = Ok document' ->
  removeSourceLocations document' = Ok document'.
Proof. apply removeSourceLocations_again. Qed.

Lemma mapProps_keys deleted f props props' :
  mapProps deleted f props = Ok props' ->
  List.map fst props'
  = List.map fst (List.filter (fun kv => negb (deleted (fst kv))) props).
Proof.
  revert props'. induction props as [|[k v] props IH]; intros props';
    cbn [mapProps List.filter fst].
  - by intros [= <-].
  - destruct (deleted k); cbn [negb]; [apply IH|].
    destruct (f v) as [y|]; [|done].
    destruct (mapProps deleted f props) as [ps|] eqn:Hps; [|done].
    intros [= <-]. cbn [List.map fst]. f_equal. by apply IH.
Qed.

Lemma mapResult_length {A B} (f : A -> Result B) l l' :
  mapResult f l = Ok l' -> length l' = length l.
Proof.
  revert l'. induction l as [|x l IH]; intros l'; cbn [mapResult].
  - by intros [= <-].
  - destruct (f x); [|done]. destruct (mapResult f l) as [ys|]; [|done].
    intros [= <-]. cbn [length]. f_equal. by apply IH.
Qed.

(** X8. The walk drops nothing but [loc]: an object keeps its other
    properties in their order, it loses its [loc] properties exactly when
    [obj.loc] is truthy (a falsy [loc] stays), an array keeps its length,
    and a boolean, number or string is returned as it is. *)
Theorem removeSourceLocations_drops_only_loc :
  (forall props v', removeSourceLocations (JObject props) = Ok v' ->
     exists props', v' = JObject props'
       /\ List.map fst props'
          = List.map fst (if truthy (getProp "loc" props)
                          then deleteProp "loc" props else props))
  /\ (forall elems v', removeSourceLocations (JArray elems) = Ok v' ->
        exists elems', v' = JArray elems' /\ length elems' = length elems)
  /\ (forall v, match v with
                | JBool _ | JNumber _ | JString _ =>
                    removeSourceLocations v = Ok v
                | _ => True
                end).
Proof.
  repeat split.
  - intros props v'. rewrite removeSourceLocations_object.
    destruct (mapProps (locDeleted props) visitValue props)
      as [props'|] eqn:Hrun; [|done].
    intros [= <-]. exists props'. split; [done|].
    rewrite (mapProps_keys _ _ _ _ Hrun). f_equal. unfold locDeleted, deleteProp.
    destruct (truthy (getProp "loc" props)); [done|].
    clear. induction props as [|kv props IH]; [done|].
    cbn [List.filter negb]. f_equal. exact IH.
  - intros elems v'. rewrite removeSourceLocations_array.
    destruct (mapResult visitValue elems) as [elems'|] eqn:Hrun; [|done].
    intros [= <-]. exists elems'. split; [done|]. by eapply mapResult_length.
  - by intros [].
Qed.

Lemma mapResult_throws {A B} (f : A -> Result B) (Q : JSError -> Prop) l :
  Forall (fun x => forall e, f x = Throw e -> Q e) l ->
  forall e, mapResult f l = Throw e -> Q e.
Proof.
  induction 1 as [|x l Hx _ IH]; intros e; cbn [mapResult]; [done|].
  destruct (f x) as [y|e'] eqn:Hy; [|intros [= <-]; by apply Hx].
  destruct (mapResult f l) as [ys|e'] eqn:Hys; [done|].
  intros [= <-]. by apply IH.
Qed.

Lemma mapProps_throws deleted (f : JSValue -> Result JSValue)
    (Q : JSError -> Prop) props :
  Forall (fun kv => forall e, f (snd kv) = Throw e -> Q e) props ->
  forall e, mapProps deleted f props = Throw e -> Q e.
Proof.
  induction 1 as [|[k v] props Hv _ IH]; intros e; cbn [mapProps]; [done|].
  destruct (deleted k); [apply IH|]. cbn [snd] in Hv.
  destruct (f v) as [y|e'] eqn:Hy; [|intros [= <-]; by apply Hv].
  destruct (mapProps deleted f props) as [ps|e'] eqn:Hps; [done|].
  intros [= <-]. by apply IH.
Qed.

(** The only exception of the walk is the [TypeError] of reading [loc]
    from [null] or [undefined]. *)
Lemma removeSourceLocations_throws v :
  (forall e, removeSourceLocations v = Throw e -> isTypeError e)
  /\ (forall e, visitValue v = Throw e -> isTypeError e).
Proof.
  induction v as [| |b|n|s|elems IH|props IH] using JSValue_nested_ind;
    try (split; intros e; cbn; (done || (intros [= <-]; by eexists))).
  - split; intros e.
    + rewrite removeSourceLocations_array.
      destruct (mapResult visitValue elems) as [l|e'] eqn:Hrun; [done|].
      intros [= <-]. apply (mapResult_throws visitValue isTypeError elems);
        [|done].
      eapply Forall_impl; [exact IH|]. intros x Hx. apply Hx.
    + cbn [visitValue].
      destruct (mapResult removeSourceLocations elems) as [l|e'] eqn:Hrun;
        [done|].
      intros [= <-].
      apply (mapResult_throws removeSourceLocations isTypeError elems); [|done].
      eapply Forall_impl; [exact IH|]. intros x Hx. apply Hx.
  - assert (Hobj : forall e, removeSourceLocations (JObject props) = Throw e ->
                             isTypeError e).
    { intros e. rewrite removeSourceLocations_object.
      destruct (mapProps _ visitValue props) as [l|e'] eqn:Hrun; [done|].
      intros [= <-].
      apply (mapProps_throws (locDeleted props) visitValue isTypeError props);
        [|done].
      eapply Forall_impl; [exact IH|]. intros kv Hkv. apply Hkv. }
    split; [exact Hobj|]. intros e. cbn [visitValue]. apply Hobj.
Qed.

Lemma mapResult_meets {A B} (f : A -> Result B) l x :
  In x l -> (exists e, f x = Throw e) -> exists e, mapResult f l = Throw e.
Proof.
  intros Hin (e & He). induction l as [|y l IH]; [done|]. cbn [mapResult].
  destruct Hin as [->|Hin].
  - rewrite He. by eexists.
  - destruct (f y); [|by eexists].
    destruct (IH Hin) as (e' & ->). by eexists.
Qed.

Lemma mapProps_meets deleted (f : JSValue -> Result JSValue) props k v :
  In (k, v) props -> deleted k = false -> (exists e, f v = Throw e) ->
  exists e, mapProps deleted f props = Throw e.
Proof.
  intros Hin Hk (e & He). induction props as [|[k' v'] props IH]; [done|].
  cbn [mapProps]. destruct Hin as [[= -> ->]|Hin].
  - rewrite Hk, He. by eexists.
  - destruct (deleted k'); [by apply IH|].
    destruct (f v'); [|by eexists].
    destruct (IH Hin) as (e' & ->). by eexists.
Qed.

(** X9. The walk does not guard the elements of a sequence: an object
    with a property, other than [loc], that holds an array with a [null]
    or [undefined] element makes it throw a [TypeError]. *)
Theorem removeSourceLocations_null_element (props : list (string * JSValue))
    (k : string) (elems : list JSValue) (x : JSValue) :
  In (k, JArray elems) props ->
  String.eqb k "loc" = false ->
  In x elems ->
  isNullish x = true ->
  exists m, removeSourceLocations (JObject props) = Throw (TypeError m).
Proof.
  intros Hprop Hk Hx Hnull.
  assert (Hthrow : exists e, removeSourceLocations (JObject props) = Throw e).
  { rewrite removeSourceLocations_object.
    destruct (mapProps_meets (locDeleted props) visitValue props k (JArray elems))
      as (e & ->); [done| | |by eexists].
    - unfold locDeleted. rewrite Hk. by destruct (truthy _).
    - cbn [visitValue].
      destruct (mapResult_meets removeSourceLocations elems x) as (e & ->);
        [done| |by eexists].
      destruct x; try discriminate; by eexists. }
  destruct Hthrow as (e & He).
  destruct (proj1 (removeSourceLocations_throws (JObject props)) e He) as (m & ->).
  by exists m.
Qed.

Lemma removeSourceLocations_null_element_witness :
  In ("definitions", JArray [JNull]) [("definitions", JArray [JNull])]
  /\ String.eqb "definitions" "loc" = false
  /\ In JNull [JNull]
  /\ isNullish JNull = true
  /\ exists m, removeSourceLocations (JObject [("definitions", JArray [JNull])])
               = Throw (TypeError m).
Proof.
  assert (H1 : In ("definitions", JArray [JNull]) [("definitions", JArray [JNull])])
    by (simpl; auto).
  assert (H3 : In JNull [JNull]) by (simpl; auto).
  split; [exact H1|]. split; [reflexivity|]. split; [exact H3|].
  split; [reflexivity|].
  exact (removeSourceLocations_null_element
           [("definitions", JArray [JNull])] "definitions" [JNull] JNull
           H1 eq_refl H3 eq_refl).
Defined.

End MoreStripping.

(** * Further properties of the import scan *)

Section MoreScanning.

Lemma splitLines_cons c rest :
  splitLines (String c rest)
  = if Ascii.eqb c CR then
      match rest with
      | String c' rest' =>
          if Ascii.eqb c' LF
          then EmptyString :: String CR (String LF EmptyString) :: splitLines rest'
          else EmptyString :: String CR EmptyString :: splitLines rest
      | EmptyString => EmptyString :: String CR EmptyString :: splitLines rest
      end
    else if Ascii.eqb c LF then
      EmptyString :: String LF EmptyString :: splitLines rest
    else
      match splitLines rest with
      | line :: more => String c line :: more
      | [] => [String c EmptyString]
      end.
Proof. reflexivity. Qed.

Lemma linesAndSeparators_cons c line more :
  isLineTerminator c = false ->
  linesAndSeparators (line :: more) = true ->
  linesAndSeparators (String c line :: more) = true.
Proof.
  intros Hc.
  assert (Hfirst : notLineTerminator c = true)
    by (unfold notLineTerminator; by rewrite Hc).
  destruct more as [|sep rest]; cbn [linesAndSeparators allChars];
    by rewrite Hfirst.
Qed.

Lemma splitLines_faithful n :
  forall s, String.length s <= n ->
    joinPieces (splitLines s) = s /\ linesAndSeparators (splitLines s) = true.
Proof.
  induction n as [|n IH]; intros s Hlen.
  - destruct s; [done|]. cbn [String.length] in Hlen. lia.
  - destruct s as [|c rest]; [done|]. cbn [String.length] in Hlen.
    rewrite splitLines_cons.
    destruct (Ascii.eqb_spec c CR) as [->|Hcr].
    + destruct rest as [|c' rest'].
      * done.
      * destruct (Ascii.eqb_spec c' LF) as [->|Hlf].
        -- destruct (IH rest') as [Hjoin Hshape];
             [cbn [String.length] in Hlen; lia|].
           cbn [joinPieces fold_right linesAndSeparators allChars].
           fold (joinPieces (splitLines rest')).
           rewrite Hjoin, Hshape. done.
        -- destruct (IH (String c' rest')) as [Hjoin Hshape]; [lia|].
           cbn [joinPieces fold_right linesAndSeparators allChars].
           fold (joinPieces (splitLines (String c' rest'))).
           rewrite Hjoin, Hshape. done.
    + destruct (IH rest) as [Hjoin Hshape]; [lia|].
      destruct (Ascii.eqb_spec c LF) as [->|Hlf].
      * cbn [joinPieces fold_right linesAndSeparators allChars].
        fold (joinPieces (splitLines rest)). rewrite Hjoin, Hshape. done.
      * destruct (splitLines rest) as [|line more]; [done|]. split.
        -- cbn [joinPieces fold_right] in *. rewrite append_cons. by f_equal.
        -- apply linesAndSeparators_cons; [|done].
           unfold isLineTerminator.
           by rewrite (proj2 (Ascii.eqb_neq _ _) Hcr),
                      (proj2 (Ascii.eqb_neq _ _) Hlf).
Qed.

(** X10. The split of the source into lines loses nothing and cuts at
    every line terminator: the pieces joined give the source back, and
    they are a line, then separator and line in turn, where no line holds
    a carriage return or a line feed. *)
Theorem splitLines_lines_and_separators (source : string) :
  joinPieces (splitLines source) = source
  /\ linesAndSeparators (splitLines source) = true.
Proof. by apply (splitLines_faithful (String.length source)). Qed.

Lemma append_associative a b c :
  String.append (String.append a b) c = String.append a (String.append b c).
Proof.
  induction a as [|x a IH]; [by rewrite !append_empty|].
  by rewrite !append_cons, IH.
Qed.

Lemma splitSpaces_quoted_trailing q path extra :
  isQuote q = true -> allChars plainChar path = true ->
  splitSpaces
    (String q (String.append path (String q (String " "%char extra))))
  = String q (String.append path (String q EmptyString)) :: splitSpaces extra.
Proof.
  intros Hq Hpath. destruct (isQuote_spec q Hq) as [Hspace _].
  assert (Htail :
    splitSpaces (String.append path (String q (String " "%char extra)))
    = String.append path (String q EmptyString) :: splitSpaces extra).
  { induction path as [|c path IH].
    - rewrite !append_empty, !splitSpaces_cons, Hspace. reflexivity.
    - cbn [allChars] in Hpath. apply andb_true_iff in Hpath as [Hc Hpath].
      apply plainChar_spec in Hc as (Hc & _ & _).
      by rewrite !append_cons, splitSpaces_cons, Hc, IH. }
  by rewrite splitSpaces_cons, Hspace, Htail.
Qed.

(** X11. Text after the path is ignored: when a space follows the
    closing quote, whatever comes after it, the directive is read as if
    the line ended at the quote. *)
Theorem scanLine_ignores_trailing_text (q : ascii) (path extra : string) :
  isQuote q = true -> path <> EmptyString ->
  allChars plainChar path = true ->
  scanLine (String.append (importLine q path) (String " "%char extra))
  = Import path.
Proof.
  intros Hq Hne Hpath. unfold importLine.
  repeat progress rewrite ?append_associative, ?append_cons, ?append_empty.
  cbn [scanLine Ascii.eqb Bool.eqb negb].
  do 7 rewrite splitSpaces_cons. cbn [Ascii.eqb Bool.eqb].
  rewrite splitSpaces_quoted_trailing by done.
  cbn [negb String.eqb Ascii.eqb Bool.eqb].
  destruct path as [|c path]; [done|].
  cbn [allChars] in Hpath. apply andb_true_iff in Hpath as [Hc Hpath].
  apply plainChar_spec in Hc as (_ & _ & Hc).
  rewrite append_cons. cbn [matchQuoted String.eqb].
  by rewrite Hq, Hc, uptoLastQuote_plain.
Qed.

Lemma scanLine_ignores_trailing_text_witness :
  isQuote squote = true
  /\ "./a.graphql" <> EmptyString
  /\ allChars plainChar "./a.graphql" = true
  /\ scanLine "#import './a.graphql' # the shared fields"
     = Import "./a.graphql".
Proof.
  split; [reflexivity|]. split; [discriminate|]. split; [reflexivity|].
  exact (scanLine_ignores_trailing_text squote "./a.graphql"
           "# the shared fields" eq_refl ltac:(discriminate) eq_refl).
Defined.

(** X12. A path that is not quoted is always refused: when the text
    after [#import ] is empty or opens with anything but a quote (a
    second space included), the line is a malformed directive. *)
Theorem scanLine_unquoted_is_malformed (rest : string) :
  opensUnquoted rest = true ->
  scanLine (String.append "#import " rest) = MalformedImport.
Proof.
  intros Hrest. rewrite !append_cons, append_empty.
  cbn [scanLine Ascii.eqb Bool.eqb negb].
  rewrite !splitSpaces_cons. cbn [Ascii.eqb Bool.eqb].
  destruct rest as [|c r]; [reflexivity|].
  cbn [opensUnquoted] in Hrest. apply negb_true_iff in Hrest.
  rewrite splitSpaces_cons.
  destruct (Ascii.eqb c " "%char); [reflexivity|].
  destruct (splitSpaces r) as [|tok more];
    cbn [negb String.eqb Ascii.eqb Bool.eqb matchQuoted].
  - reflexivity.
  - destruct tok; [reflexivity|]. by rewrite Hrest.
Qed.

Lemma scanLine_unquoted_is_malformed_witness :
  opensUnquoted "fragments.graphql" = true
  /\ scanLine "#import fragments.graphql" = MalformedImport.
Proof.
  split; [reflexivity|].
  exact (scanLine_unquoted_is_malformed "fragments.graphql" eq_refl).
Defined.

End MoreScanning.

(** * Further properties of import resolution *)

Section MoreResolution.
Context `{Externals}.

Lemma scanImports_wellFormed loader lines w :
  wellFormedLines lines = true ->
  scanImports loader lines w
  = Some (Ok (directivePaths lines),
          w ++ List.map (EvResolve (context loader)) (directivePaths lines)).
Proof.
  revert w. induction lines as [|line lines IH]; intros w Hwf.
  - cbn. by rewrite app_nil_r.
  - cbn [wellFormedLines forallb] in Hwf.
    cbn [scanImports directivePaths omap list_omap].
    destruct (scanLine line) as [| |filePath]; [by apply IH|done|].
    cbn [andb] in Hwf. unfold mbind, M_bind, bind, emit.
    fold (directivePaths lines). rewrite (IH _ Hwf). cbn [List.map].
    by rewrite <- app_assoc.
Qed.


Lemma settleAll_resolved loader paths w :
  settleAll (resolved loader) paths w
  = Some (Ok (List.map (resolve loader (context loader)) paths),
          w ++ dependencyEvents
                 (List.map (resolve loader (context loader)) paths)).
Proof.
  revert w. induction paths as [|p paths IH]; intros w.
  - cbn. by rewrite app_nil_r.
  - cbn [settleAll List.map dependencyEvents flat_map].
    unfold mbind, M_bind, bind, attempt, resolved, liftResult.
    unfold mbind, M_bind, bind, emit, mret, M_ret, ret.
    destruct (resolve loader (context loader) p) as [file|e]; rewrite IH.
    + by rewrite <- app_assoc.
    + reflexivity.
Qed.

Lemma settleAll_readFile loader files w :
  settleAll (readFile loader) files w
  = Some (Ok (List.map (fs_readFile loader) files),
          w ++ List.map EvReadFile files).
Proof.
  revert w. induction files as [|f files IH]; intros w.
  - cbn. by rewrite app_nil_r.
  - cbn [settleAll List.map].
    unfold mbind, M_bind, bind, attempt, readFile, liftResult.
    unfold mbind, M_bind, bind, emit. rewrite IH.
    by rewrite <- app_assoc.
Qed.

Lemma promiseAll_nil {A B} (f : A -> M B) w :
  promiseAll f [] w = Some (Ok [], w).
Proof. reflexivity. Qed.

Lemma setDefinitions_same document :
  setDefinitions document (definitions document ++ []) = document.
Proof. destruct document. unfold setDefinitions. cbn. by rewrite app_nil_r. Qed.

Lemma directivePaths_importFree source :
  importFree source = true ->
  wellFormedLines (splitLines source) = true
  /\ directivePaths (splitLines source) = [].
Proof.
  unfold importFree. induction (splitLines source) as [|line lines IH];
    [done|].
  cbn [forallb wellFormedLines directivePaths omap list_omap].
  destruct (scanLine line); first [done | cbn [andb]; apply IH].
Qed.

Lemma loadSource_importFree fuel loader source w :
  importFree source = true ->
  loadSource (S fuel) loader source w = Some (graphqlParse source, w).
Proof.
  intros Hfree.
  destruct (directivePaths_importFree source Hfree) as [Hwf Hnone].
  cbn [loadSource]. unfold mbind, M_bind, bind, liftResult.
  destruct (graphqlParse source) as [document|e]; [|done].
  unfold extractImports, mbind, M_bind, bind.
  rewrite scanImports_wellFormed by done. rewrite Hnone. cbn [List.map].
  rewrite app_nil_r, !promiseAll_nil. cbn [fold_left].
  unfold mret, M_ret, ret. by rewrite setDefinitions_same.
Qed.

(** X13. A source without import directives loads to its plain parse:
    the result is the parser's (its document or its error), and the host
    sees no call at all. *)
Theorem loadSource_without_imports (fuel : nat) (loader : LoaderContext)
    (source : string) (w : World) :
  importFree source = true ->
  loadSource (S fuel) loader source w = Some (graphqlParse source, w).
Proof. apply loadSource_importFree. Qed.



Lemma bind_returns {A B} (m : M A) (k : A -> M B) w b w' :
  (m ≫= k) w = Some (Ok b, w') ->
  exists a w1, m w = Some (Ok a, w1) /\ k a w1 = Some (Ok b, w').
Proof.
  unfold mbind, M_bind, bind.
  destruct (m w) as [[[a|e] w1]|]; [|done|done]. intros Hk. by exists a, w1.
Qed.

Lemma loadSource_local_prefix fuel loader source w d w' :
  loadSource fuel loader source w = Some (Ok d, w') ->
  exists parsed imported,
    graphqlParse source = Ok parsed
    /\ definitions d = definitions parsed ++ imported
    /\ doc_loc d = doc_loc parsed.
Proof.
  destruct fuel as [|fuel]; [done|]. cbn [loadSource]. intros Hrun.
  apply bind_returns in Hrun as (parsed & w1 & Hparse & Hrun).
  unfold liftResult in Hparse. injection Hparse as Hparse <-.
  unfold extractImports in Hrun.
  apply bind_returns in Hrun as (imports & w2 & _ & Hrun).
  apply bind_returns in Hrun as (files & w3 & _ & Hrun).
  apply bind_returns in Hrun as (contents & w4 & _ & Hrun).
  apply bind_returns in Hrun as (nodes & w5 & _ & Hrun).
  unfold mret, M_ret, ret in Hrun. injection Hrun as <- <-.
  by eexists parsed, _.
Qed.

(** X16. Local definitions come first, so local fragments win: in a
    loaded document the definitions of the source's own parse precede
    everything pulled in by imports, and after deduplication a fragment
    name that the source defines itself belongs to the source's first
    definition of it, whatever the imported files define. *)
Theorem local_fragment_shadows_imports (fuel : nat) (loader : LoaderContext)
    (source : string) (w w' : World) (d : DocumentNode) :
  loadSource fuel loader source w = Some (Ok d, w') ->
  exists parsed imported,
    graphqlParse source = Ok parsed
    /\ definitions d = definitions parsed ++ imported
    /\ forall n, existsb (namedFragment n) (definitions parsed) = true ->
         List.filter (namedFragment n)
           (definitions (removeDuplicateFragments d))
         = firstn 1 (List.filter (namedFragment n) (definitions parsed)).
Proof.
  intros Hrun.
  destruct (loadSource_local_prefix _ _ _ _ _ _ Hrun)
    as (parsed & imported & Hparse & Hdefs & _).
  exists parsed, imported. repeat split; [done..|]. intros n Hlocal.
  unfold removeDuplicateFragments. cbn [definitions setDefinitions].
  rewrite filterDuplicates_named, bool_decide_eq_false_2 by set_solver.
  rewrite Hdefs, List.filter_app.
  apply existsb_exists in Hlocal as (def & Hin & Hnamed).
  assert (Hfound : In def (List.filter (namedFragment n) (definitions parsed)))
    by (by apply filter_In).
  destruct (List.filter (namedFragment n) (definitions parsed)); [done|].
  reflexivity.
Qed.








End MoreResolution.

(** * Further properties of the loader's calls to the host *)

Section HostCalls.
Context `{Externals}.

Lemma readsRecorded_app evs1 evs2 :
  readsRecorded evs1 -> readsRecorded evs2 -> readsRecorded (evs1 ++ evs2).
Proof.
  intros H1 H2 before file after Heq.
  apply List.app_eq_app in Heq as (l & [[-> Hl]|[-> Hl]]).
  - destruct l as [|ev l].
    + cbn [app] in Hl. symmetry in Hl. by destruct (H2 [] file after Hl).
    + injection Hl as <- ->. by apply (H1 before file l).
  - apply in_or_app. right. by apply (H2 l file after).
Qed.

Lemma readsRecorded_no_reads evs :
  Forall (fun ev => isReadFile ev = false) evs -> readsRecorded evs.
Proof.
  intros Hall before file after ->.
  apply Forall_app in Hall as [_ Hall]. by inversion Hall.
Qed.

Lemma dependencyEvents_no_reads results :
  Forall (fun ev => isReadFile ev = false) (dependencyEvents results).
Proof.
  induction results as [|[file|e] results IH]; cbn [dependencyEvents flat_map app];
    [constructor|by constructor|done].
Qed.

Lemma dependencyEvents_settled results files :
  firstThrow results = Ok files ->
  dependencyEvents results = List.map EvAddDependency files.
Proof.
  revert files. induction results as [|[file|e] results IH]; intros files;
    cbn [firstThrow]; [by intros [= <-]| |done].
  destruct (firstThrow results) as [l|]; [|done]. cbn [bindResult].
  intros [= <-]. cbn [dependencyEvents flat_map List.map app].
  f_equal. by apply IH.
Qed.

Lemma readsRecorded_dependencies_then_reads files :
  readsRecorded (List.map EvAddDependency files ++ List.map EvReadFile files).
Proof.
  intros before file after Heq.
  assert (Hfile : In file files).
  { assert (Hin : In (EvReadFile file)
                    (List.map EvAddDependency files ++ List.map EvReadFile files))
      by (rewrite Heq; apply in_or_app; right; by left).
    apply in_app_or in Hin as [Hin|Hin];
      apply in_map_iff in Hin as (f & [=] & Hf). by subst f. }
  assert (Hdep : In (EvAddDependency file) (List.map EvAddDependency files))
    by (apply in_map_iff; by exists file).
  apply List.app_eq_app in Heq as (l & [[Hdeps Hl]|[-> Hl]]).
  - destruct l as [|ev l].
    + rewrite app_nil_r in Hdeps. by rewrite <- Hdeps.
    + injection Hl as <- _.
      assert (Hbad : In (EvReadFile file) (List.map EvAddDependency files))
        by (rewrite Hdeps; apply in_or_app; right; by left).
      apply in_map_iff in Hbad as (f & [=] & _).
  - apply in_or_app. by left.
Qed.

Lemma adds_pure (Q : list Event -> Prop) {A} (r : Result A) :
  Q [] -> adds Q (liftResult r).
Proof. intros HQ w r' w' [= <- <-]. exists []. by rewrite app_nil_r. Qed.

Lemma adds_bind (Q : list Event -> Prop) {A B} (m : M A) (k : A -> M B) :
  (forall evs1 evs2, Q evs1 -> Q evs2 -> Q (evs1 ++ evs2)) ->
  adds Q m -> (forall a, adds Q (k a)) -> adds Q (m ≫= k).
Proof.
  intros Happ Hm Hk w r w'. unfold mbind, M_bind, bind.
  destruct (m w) as [[[a|e] w1]|] eqn:Hrun; [| |done].
  - intros Hrun'. apply Hm in Hrun as (evs1 & -> & H1).
    apply Hk in Hrun' as (evs2 & -> & H2).
    exists (evs1 ++ evs2). split; [by rewrite app_assoc|]. by apply Happ.
  - intros [= <- <-]. by apply Hm in Hrun.
Qed.

Lemma adds_settleAll (Q : list Event -> Prop) {A B} (f : A -> M B) l :
  Q [] -> (forall evs1 evs2, Q evs1 -> Q evs2 -> Q (evs1 ++ evs2)) ->
  (forall x, adds Q (f x)) -> adds Q (settleAll f l).
Proof.
  intros Hnil Happ Hf. induction l as [|x l IH]; cbn [settleAll].
  - by apply (adds_pure Q (Ok [])).
  - apply adds_bind; [done| |].
    + intros w r w'. unfold attempt.
      destruct (f x w) as [[r1 w1]|] eqn:Hrun; [|done].
      intros [= <- <-]. by apply Hf in Hrun.
    + intros r. apply adds_bind; [done|done|]. intros rs.
      by apply (adds_pure Q (Ok (r :: rs))).
Qed.

Lemma adds_promiseAll (Q : list Event -> Prop) {A B} (f : A -> M B) l :
  Q [] -> (forall evs1 evs2, Q evs1 -> Q evs2 -> Q (evs1 ++ evs2)) ->
  (forall x, adds Q (f x)) -> adds Q (promiseAll f l).
Proof.
  intros Hnil Happ Hf. unfold promiseAll.
  apply adds_bind; [done|by apply adds_settleAll|].
  intros rs. by apply adds_pure.
Qed.

Lemma adds_logs (P : Event -> Prop) (Q : list Event -> Prop) {A} (m : M A) :
  (forall evs, Forall P evs -> Q evs) -> logs P m -> adds Q m.
Proof.
  intros HPQ Hm w r w' Hrun. apply Hm in Hrun as (evs & -> & Hall).
  exists evs. split; [done|]. by apply HPQ.
Qed.

Lemma readsRecorded_nil : readsRecorded [].
Proof. intros before file after Heq. by destruct before. Qed.

Lemma logs_scanImports_no_reads loader lines :
  logs (fun ev => isReadFile ev = false) (scanImports loader lines).
Proof.
  induction lines as [|line lines IH]; cbn [scanImports].
  - apply (logs_pure _ (Ok [])).
  - destruct (scanLine line) as [| |filePath]; [done| |].
    + apply (logs_pure _ (Throw _)).
    + apply logs_bind; [by apply logs_emit|]. intros _.
      apply logs_bind; [done|]. intros rs.
      apply (logs_pure _ (Ok (filePath :: rs))).
Qed.

(** The two joins that follow the scan: dependencies, then reads. *)
Lemma resolve_then_read_recorded {A} loader imports (rest : list string -> M A) :
  (forall contents, adds readsRecorded (rest contents)) ->
  adds readsRecorded
    (files ← promiseAll (resolved loader) imports;
     contents ← promiseAll (readFile loader) files;
     rest contents).
Proof.
  intros Hrest w r w'.
  unfold promiseAll, mbind, M_bind, bind, liftResult.
  rewrite settleAll_resolved.
  set (results := List.map (resolve loader (context loader)) imports).
  destruct (firstThrow results) as [files|e] eqn:Hfiles.
  - rewrite settleAll_readFile.
    rewrite (dependencyEvents_settled results files Hfiles).
    destruct (firstThrow (List.map (fs_readFile loader) files))
      as [contents|e] eqn:Hcontents.
    + intros Hrun. apply Hrest in Hrun as (evs & -> & Hevs).
      exists ((List.map EvAddDependency files ++ List.map EvReadFile files)
                ++ evs).
      split; [by rewrite <- !app_assoc|].
      apply readsRecorded_app; [|done].
      apply readsRecorded_dependencies_then_reads.
    + intros [= <- <-].
      exists (List.map EvAddDependency files ++ List.map EvReadFile files).
      split; [by rewrite <- !app_assoc|].
      apply readsRecorded_dependencies_then_reads.
  - intros [= <- <-]. exists (dependencyEvents results). split; [done|].
    apply readsRecorded_no_reads, dependencyEvents_no_reads.
Qed.

Lemma loadSource_readsRecorded fuel loader source :
  adds readsRecorded (loadSource fuel loader source).
Proof.
  revert source. induction fuel as [|fuel IH]; intros source; cbn [loadSource].
  - intros w r w' [=].
  - apply adds_bind; [apply readsRecorded_app| |].
    { apply adds_pure, readsRecorded_nil. }
    intros document. unfold extractImports.
    apply adds_bind; [apply readsRecorded_app| |].
    { apply (adds_logs (fun ev => isReadFile ev = false));
        [apply readsRecorded_no_reads|apply logs_scanImports_no_reads]. }
    intros imports. apply resolve_then_read_recorded. intros contents.
    apply adds_bind; [apply readsRecorded_app| |].
    { apply adds_promiseAll;
        [apply readsRecorded_nil|apply readsRecorded_app|done]. }
    intros nodes. apply (adds_pure _ (Ok _)), readsRecorded_nil.
Qed.

Lemma logs_findSchemaFileFrom_no_reads fuel loader context schemaPath cur :
  logs (fun ev => isReadFile ev = false)
    (findSchemaFileFrom fuel loader context schemaPath cur).
Proof.
  revert cur. induction fuel as [|fuel IH]; intros cur;
    cbn [findSchemaFileFrom].
  - intros w r w' [=].
  - apply logs_bind.
    + unfold statIsFile. apply logs_bind; [by apply logs_emit|]. intros _.
      apply (logs_pure _ (Ok _)).
    + intros [|]; [apply (logs_pure _ (Ok _))|].
      destruct (String.eqb _ cur); [apply (logs_pure _ (Throw _))|apply IH].
Qed.

Lemma loadOptions_readsRecorded fuel loader :
  adds readsRecorded (loadOptions fuel loader).
Proof.
  unfold loadOptions. apply adds_bind; [apply readsRecorded_app| |].
  - destruct (truthyFlag _); [|apply (adds_pure _ (Ok None)), readsRecorded_nil].
    destruct (opt_schema _) as [schemaOpt|];
      [|apply (adds_pure _ (Throw _)), readsRecorded_nil].
    destruct (String.eqb schemaOpt "");
      [apply (adds_pure _ (Throw _)), readsRecorded_nil|].
    apply adds_bind; [apply readsRecorded_app| |].
    { apply (adds_logs (fun ev => isReadFile ev = false));
        [apply readsRecorded_no_reads|apply logs_findSchemaFileFrom_no_reads]. }
    intros schemaPath w r w'.
    unfold mbind, M_bind, bind, emit, readFile, liftResult.
    unfold mbind, M_bind, bind, emit, mret, M_ret, ret.
    intros Hrun.
    exists ([EvAddDependency schemaPath] ++ [EvReadFile schemaPath]). split.
    + destruct (fs_readFile loader schemaPath) as [text|e];
        [destruct (buildClientSchema text)|];
        injection Hrun as _ <-; by rewrite <- !app_assoc.
    + apply (readsRecorded_dependencies_then_reads [schemaPath]).
  - intros sch. apply (adds_pure _ (Ok _)), readsRecorded_nil.
Qed.

Lemma logs_forEachM_emit (P : Event -> Prop) (errs : list JSError) :
  (forall e, P (EvEmitError e)) ->
  logs P (forEachM (fun err => emit (EvEmitError err)) errs).
Proof.
  intros HP. induction errs as [|e errs IH]; cbn [forEachM].
  - apply (logs_pure _ (Ok tt)).
  - apply logs_bind; [by apply logs_emit|]. by intros _.
Qed.

Lemma pipeline_readsRecorded fuel this source :
  adds readsRecorded (pipeline fuel this source).
Proof.
  unfold pipeline.
  apply adds_bind; [apply readsRecorded_app|apply loadOptions_readsRecorded|].
  intros options.
  apply adds_bind; [apply readsRecorded_app|apply loadSource_readsRecorded|].
  intros document.
  apply adds_bind; [apply readsRecorded_app| |].
  { apply adds_pure, readsRecorded_nil. }
  intros stripped.
  apply adds_bind; [apply readsRecorded_app| |].
  - destruct (schema options) as [s|];
      [|apply (adds_pure _ (Ok tt)), readsRecorded_nil].
    apply (adds_logs (fun ev => isReadFile ev = false));
      [apply readsRecorded_no_reads|by apply logs_forEachM_emit].
  - intros _. apply (adds_pure _ (Ok _)), readsRecorded_nil.
Qed.

(** X19. Whatever the loader reads it has declared first: in the calls
    the host sees during a run, every [readFile] of a path (the schema
    file, an imported file at any depth) comes after an [addDependency]
    of the same path. *)
Theorem loader_reads_only_recorded_dependencies (fuel : nat)
    (this : LoaderContext) (source : string) (w w' : World)
    (r : LoaderResult) :
  loader fuel this source w = Some (r, w') ->
  exists evs, w' = w ++ evs /\ readsRecorded evs.
Proof.
  unfold loader. destruct (negb (async this)).
  - intros [= <- <-]. exists [EvCacheable]. split; [done|].
    by apply readsRecorded_no_reads; repeat constructor.
  - destruct (pipeline fuel this source (w ++ [EvCacheable]))
      as [[r1 w1]|] eqn:Hrun; [|done].
    intros [= <- <-]. apply pipeline_readsRecorded in Hrun as (evs & -> & Hevs).
    exists ([EvCacheable] ++ evs). split; [by rewrite app_assoc|].
    apply readsRecorded_app; [|done].
    by apply readsRecorded_no_reads; repeat constructor.
Qed.

End HostCalls.

Lemma loader_reads_only_recorded_dependencies_witness :
  @loader Sample.libraries 3 (Sample.host "/a" Sample.noOptions)
    "#import './sub/b.graphql'" []
  = Some (Done (Throw (Error "ENOENT: /a/c.graphql")),
          [EvCacheable;
           EvResolve "/a" "./sub/b.graphql";
           EvAddDependency "/a/sub/b.graphql";
           EvReadFile "/a/sub/b.graphql";
           EvResolve "/a" "./c.graphql";
           EvAddDependency "/a/c.graphql";
           EvReadFile "/a/c.graphql"])
  /\ exists evs,
       [EvCacheable;
        EvResolve "/a" "./sub/b.graphql";
        EvAddDependency "/a/sub/b.graphql";
        EvReadFile "/a/sub/b.graphql";
        EvResolve "/a" "./c.graphql";
        EvAddDependency "/a/c.graphql";
        EvReadFile "/a/c.graphql"] = [] ++ evs
       /\ readsRecorded evs.
Proof.
  assert (Hrun : @loader Sample.libraries 3 (Sample.host "/a" Sample.noOptions)
    "#import './sub/b.graphql'" []
  = Some (Done (Throw (Error "ENOENT: /a/c.graphql")),
          [EvCacheable;
           EvResolve "/a" "./sub/b.graphql";
           EvAddDependency "/a/sub/b.graphql";
           EvReadFile "/a/sub/b.graphql";
           EvResolve "/a" "./c.graphql";
           EvAddDependency "/a/c.graphql";
           EvReadFile "/a/c.graphql"])) by (vm_compute; reflexivity).
  split; [exact Hrun|].
  exact (@loader_reads_only_recorded_dependencies Sample.libraries 3
           (Sample.host "/a" Sample.noOptions) "#import './sub/b.graphql'"
           [] _ _ Hrun).
Defined.


(** * The options and the outcome of a run *)

Section OptionsAndOutcomes.
Context `{Externals}.

(** X20. With [validate] set and a schema name given, [loadOptions]
    searches the loader's directory and its parents for the name; if no
    level has the file it fails with the search's message after the
    [stat] calls alone; otherwise it records the first file found as a
    dependency, reads it, and builds the schema from its text, failing
    with the error of the read or of the build if either fails.  The
    host sees the [stat] calls, then [addDependency], then [readFile],
    and nothing else. *)
Theorem loadOptions_loads_nearest_schema (loader : LoaderContext)
    (schemaOpt : string) (n fuel : nat) (w : World) :
  opt_validate (getOptions loader) = Some true ->
  opt_schema (getOptions loader) = Some schemaOpt ->
  schemaOpt <> EmptyString ->
  dirname (ancestor n (context loader)) = ancestor n (context loader) ->
  (forall k, k < n ->
     dirname (ancestor k (context loader)) <> ancestor k (context loader)) ->
  n < fuel ->
  loadOptions fuel loader w
  = Some
      (match List.find (isFileAt loader)
               (candidates (context loader) schemaOpt 0 n) with
       | None =>
           (Throw (Error (schemaNotFoundMessage schemaOpt (context loader))),
            w ++ List.map EvStat
                   (examined loader (candidates (context loader) schemaOpt 0 n)))
       | Some schemaPath =>
           (bindResult (fs_readFile loader schemaPath) (fun schemaString =>
            bindResult (buildClientSchema schemaString) (fun built =>
            Ok {| schema := Some built;
                  output := match opt_output (getOptions loader) with
                            | None | Some OutString => OutString
                            | Some OutDocument => OutDocument
                            end;
                  removeUnused :=
                    opt_removeUnusedFragments (getOptions loader) |})),
            w ++ List.map EvStat
                   (examined loader (candidates (context loader) schemaOpt 0 n))
              ++ [EvAddDependency schemaPath; EvReadFile schemaPath])
       end).
Proof.
  intros Hvalidate Hschema Hnonempty Hroot Hmin Hfuel.
  unfold loadOptions. rewrite Hvalidate, Hschema. cbn [truthyFlag].
  apply String.eqb_neq in Hnonempty. rewrite Hnonempty.
  unfold findSchemaFile, mbind, M_bind, bind.
  change (context loader) with (ancestor 0 (context loader)) at 2.
  rewrite (findSchemaFileFrom_levels loader (context loader) schemaOpt n
             Hroot Hmin n 0 fuel w) by lia.
  unfold searchResult.
  destruct (List.find _ _) as [schemaPath|]; [|done].
  unfold readFile, liftResult, mbind, M_bind, bind, mret, M_ret, ret.
  unfold mbind, M_bind, bind, emit.
  rewrite <- !app_assoc. cbn [app].
  destruct (fs_readFile loader schemaPath) as [text|e];
    cbn [bindResult]; [|done].
  by destruct (buildClientSchema text).
Qed.

(** X21. Without [validate] the schema plays no part: whatever the
    [schema] option says, the run is [cacheable] followed by the loading
    of the source alone (no [stat], no schema read, no [emitError]); a
    failure of the loading goes to the callback as its error, and a
    loaded document goes to it as the serialized final document. *)
Theorem loader_without_validate (fuel : nat) (this : LoaderContext)
    (source : string) (w : World) :
  async this = true ->
  truthyFlag (opt_validate (getOptions this)) = false ->
  loader fuel this source w
  = match loadSource fuel this source (w ++ [EvCacheable]) with
    | None => None
    | Some (Throw e, w') => Some (Done (Throw e), w')
    | Some (Ok document, w') =>
        let options :=
          {| schema := None;
             output := match opt_output (getOptions this) with
                       | None | Some OutString => OutString
                       | Some OutDocument => OutDocument
                       end;
             removeUnused := opt_removeUnusedFragments (getOptions this) |} in
        Some (Done (Ok (payload options (finalDocument options document))), w')
    end.
Proof.
  intros Hasync Hvalidate.
  unfold loader, pipeline. rewrite Hasync. cbn [negb].
  unfold mbind, M_bind, bind, loadOptions. rewrite Hvalidate.
  unfold mret, M_ret, ret, mbind, M_bind, bind. cbv beta iota.
  destruct (loadSource fuel this source (w ++ [EvCacheable]))
    as [[[document|e] w']|]; [|done|done].
  unfold liftResult. rewrite removeSourceLocationsDoc_clears.
  cbn [schema removeUnused output]. reflexivity.
Qed.

End OptionsAndOutcomes.

(** * Concrete runs *)

Lemma removeSourceLocations_idempotent_witness :
  exists document',
    removeSourceLocations sampleTree = Ok document'
    /\ removeSourceLocations document' = Ok document'.
Proof.
  eexists. split; [vm_compute; reflexivity|].
  apply (removeSourceLocations_idempotent sampleTree).
  vm_compute. reflexivity.
Defined.

Lemma loadSource_without_imports_witness :
  importFree "fragment C on T { id }" = true
  /\ @loadSource Sample.libraries 1 (Sample.host "/a" Sample.noOptions)
       "fragment C on T { id }" []
     = Some (Ok Sample.parsedSample, []).
Proof.
  split; [reflexivity|].
  exact (@loadSource_without_imports Sample.libraries 0
           (Sample.host "/a" Sample.noOptions) "fragment C on T { id }" []
           eq_refl).
Defined.



Lemma local_fragment_shadows_imports_witness :
  let loaded :=
    mkDocument [Imports.spreadingF; Imports.fragmentF "id";
                Imports.fragmentF "name"] None in
  @loadSource Imports.libraries 2 (Imports.host Sample.noOptions)
    "#import './f.graphql'" []
  = Some (Ok loaded,
          [EvResolve "/p" "./f.graphql"; EvAddDependency "/p/f.graphql";
           EvReadFile "/p/f.graphql"])
  /\ exists parsed imported,
       @graphqlParse Imports.libraries "#import './f.graphql'" = Ok parsed
       /\ definitions loaded = definitions parsed ++ imported
       /\ forall n, existsb (namedFragment n) (definitions parsed) = true ->
            List.filter (namedFragment n)
              (definitions (removeDuplicateFragments loaded))
            = firstn 1 (List.filter (namedFragment n) (definitions parsed)).
Proof.
  intros loaded.
  assert (Hrun : @loadSource Imports.libraries 2 (Imports.host Sample.noOptions)
                   "#import './f.graphql'" []
                 = Some (Ok loaded,
                         [EvResolve "/p" "./f.graphql";
                          EvAddDependency "/p/f.graphql";
                          EvReadFile "/p/f.graphql"]))
    by (vm_compute; reflexivity).
  split; [exact Hrun|].
  exact (@local_fragment_shadows_imports Imports.libraries 2
           (Imports.host Sample.noOptions) "#import './f.graphql'" [] _ loaded
           Hrun).
Defined.



Lemma loadOptions_loads_nearest_schema_witness :
  let loader := Sample.host "/a/sub" Sample.validating in
  opt_validate (getOptions loader) = Some true
  /\ opt_schema (getOptions loader) = Some "schema.json"
  /\ "schema.json" <> EmptyString
  /\ @dirname Sample.libraries (@ancestor Sample.libraries 2 (context loader))
     = @ancestor Sample.libraries 2 (context loader)
  /\ (forall k, k < 2 ->
        @dirname Sample.libraries (@ancestor Sample.libraries k (context loader))
        <> @ancestor Sample.libraries k (context loader))
  /\ 2 < 3
  /\ @loadOptions Sample.libraries 3 loader []
     = Some (Ok (@mkLoaded Sample.libraries (Some tt) OutString None),
             [EvStat "/a/sub/schema.json"; EvStat "/a/schema.json";
              EvAddDependency "/a/schema.json"; EvReadFile "/a/schema.json"]).
Proof.
  intros loader.
  assert (Hname : "schema.json" <> EmptyString) by discriminate.
  assert (Hroot :
    @dirname Sample.libraries (@ancestor Sample.libraries 2 (context loader))
    = @ancestor Sample.libraries 2 (context loader)) by reflexivity.
  assert (Hmin : forall k, k < 2 ->
    @dirname Sample.libraries (@ancestor Sample.libraries k (context loader))
    <> @ancestor Sample.libraries k (context loader)).
  { intros [|[|k]] Hk; [discriminate|discriminate|lia]. }
  assert (Hfuel : 2 < 3) by lia.
  split; [reflexivity|]. split; [reflexivity|]. split; [exact Hname|].
  split; [exact Hroot|]. split; [exact Hmin|]. split; [exact Hfuel|].
  exact (@loadOptions_loads_nearest_schema Sample.libraries loader
           "schema.json" 2 3 [] eq_refl eq_refl Hname Hroot Hmin Hfuel).
Defined.

Lemma loader_without_validate_witness :
  let this := Sample.host "/a" (mkOptions (Some "schema.json") None None None) in
  async this = true
  /\ truthyFlag (opt_validate (getOptions this)) = false
  /\ @loader Sample.libraries 2 this "{ id }" []
     = Some (Done (Ok "module.exports = { }"), [EvCacheable]).
Proof.
  intros this.
  split; [reflexivity|]. split; [reflexivity|].
  exact (@loader_without_validate Sample.libraries 2 this "{ id }" []
           eq_refl eq_refl).
Defined.
